(** * logog output targets: a shallow embedding of [src/target.cpp]

    The development follows the source file top to bottom:
    - [Platform]: the build configuration the [#ifdef]s and [sizeof]s depend on;
    - [Memory]: byte-addressed memory, machine words and characters in it;
    - [Registry]: [Target::Target] and [Target::~Target] over the sets
      [AllTargets()] and [AllFilters()];
    - [Console]: [Cerr::Output], [Cout::Output] and [color::ColoredPrintf];
    - [File]: [LogFile] over a small model of the C file API;
    - [Buffer]: [LogBuffer::Allocate], [Insert], [Dump] and [Output].

    Integers of the source ([int], [size_t], pointers) are [Z]; a pointer is
    the address of a byte.  Locks ([ScopedLock]) serialise callers and have no
    effect on the sequential behaviour modelled here. *)

From Stdlib Require Import ZArith Lia.
From Stdlib.Strings Require Import Byte.
From stdpp Require Import gmap strings list.

Local Open Scope Z_scope.

(** ** Build configuration *)

(** What the preprocessor and the compiler fix for one build of the file:
    the flavor macros, [LOGOG_UNICODE], the width of [LOGOG_CHAR] and of
    [size_t] in bytes, and the byte order of the host. *)
Record Platform : Type := {
  LOGOG_FLAVOR_WINDOWS : bool;
  LOGOG_FLAVOR_POSIX : bool;
  LOGOG_UNICODE : bool;
  sizeof_LOGOG_CHAR : positive;
  sizeof_size_t : positive;
  host_little_endian : bool
}.

(** A 64-bit little-endian POSIX build with one-byte characters, and a
    Windows Unicode build with two-byte characters. *)
Definition posix64 : Platform :=
  {| LOGOG_FLAVOR_WINDOWS := false; LOGOG_FLAVOR_POSIX := true;
     LOGOG_UNICODE := false; sizeof_LOGOG_CHAR := 1; sizeof_size_t := 8;
     host_little_endian := true |}.

Definition windows_unicode : Platform :=
  {| LOGOG_FLAVOR_WINDOWS := true; LOGOG_FLAVOR_POSIX := false;
     LOGOG_UNICODE := true; sizeof_LOGOG_CHAR := 2; sizeof_size_t := 8;
     host_little_endian := true |}.

(** A little-endian POSIX Unicode build, with [wchar_t] of four bytes. *)
Definition linux_unicode : Platform :=
  {| LOGOG_FLAVOR_WINDOWS := false; LOGOG_FLAVOR_POSIX := true;
     LOGOG_UNICODE := true; sizeof_LOGOG_CHAR := 4; sizeof_size_t := 8;
     host_little_endian := true |}.

(** [int] results of the source. *)
Abbreviation int := Z (only parsing).

(** A [LOGOG_CHAR] is its code; a [LOGOG_STRING] is the sequence of its
    characters ([size()] is the length). *)
Abbreviation LOGOG_CHAR := Z (only parsing).
Abbreviation LOGOG_STRING := (list Z) (only parsing).

(** ** Memory *)

Module Memory.

Definition byte_of_Z (v : Z) : byte :=
  match Byte.of_N (Z.to_N (v mod 256)) with
  | Some b => b
  | None => x00
  end.

Definition Z_of_byte (b : byte) : Z := Z.of_N (Byte.to_N b).

(** The [n] low bytes of [v], least significant first. *)
Fixpoint encode_le (n : nat) (v : Z) : list byte :=
  match n with
  | O => []
  | S k => byte_of_Z v :: encode_le k (v / 256)
  end.

Fixpoint decode_le (bs : list byte) : Z :=
  match bs with
  | [] => 0
  | b :: r => Z_of_byte b + 256 * decode_le r
  end.

Section WithPlatform.
Context (cfg : Platform).

(** An integer of [n] bytes as the host lays it out in memory. *)
Definition encode (n : nat) (v : Z) : list byte :=
  if host_little_endian cfg then encode_le n v else rev (encode_le n v).

Definition decode (bs : list byte) : Z :=
  if host_little_endian cfg then decode_le bs else decode_le (rev bs).

(** A byte that was never written reads as 0. *)
Definition load_byte (h : gmap Z byte) (a : Z) : byte :=
  default x00 (h !! a).

Fixpoint load_bytes (h : gmap Z byte) (p : Z) (n : nat) : list byte :=
  match n with
  | O => []
  | S k => load_byte h p :: load_bytes h (p + 1) k
  end.

Fixpoint store_bytes (h : gmap Z byte) (p : Z) (bs : list byte) : gmap Z byte :=
  match bs with
  | [] => h
  | b :: r => store_bytes (<[p := b]> h) (p + 1) r
  end.

Definition WORD : Z := Z.pos (sizeof_size_t cfg).
Definition CHAR : Z := Z.pos (sizeof_LOGOG_CHAR cfg).

(** [*(size_t * )p = v] and [*(size_t * )p]. *)
Definition store_size_t (h : gmap Z byte) (p : Z) (v : Z) : gmap Z byte :=
  store_bytes h p (encode (Pos.to_nat (sizeof_size_t cfg)) v).

Definition load_size_t (h : gmap Z byte) (p : Z) : Z :=
  decode (load_bytes h p (Pos.to_nat (sizeof_size_t cfg))).

(** [*(LOGOG_CHAR * )p = c] and [*(LOGOG_CHAR * )p]. *)
Definition store_char (h : gmap Z byte) (p : Z) (c : LOGOG_CHAR) : gmap Z byte :=
  store_bytes h p (encode (Pos.to_nat (sizeof_LOGOG_CHAR cfg)) c).

Definition load_char (h : gmap Z byte) (p : Z) : LOGOG_CHAR :=
  decode (load_bytes h p (Pos.to_nat (sizeof_LOGOG_CHAR cfg))).

(** The characters a host value of type [LOGOG_CHAR] can hold. *)
Definition char_ok (c : LOGOG_CHAR) : Prop :=
  0 <= c < 256 ^ CHAR.

(** The bytes of a character array, as [c_str()] exposes them. *)
Definition string_bytes (s : LOGOG_STRING) : list byte :=
  flat_map (encode (Pos.to_nat (sizeof_LOGOG_CHAR cfg))) s.

End WithPlatform.

End Memory.

(** A string literal of the source as a character array. *)
Definition literal (s : string) : LOGOG_STRING :=
  map (fun a => Z.of_nat (Ascii.nat_of_ascii a)) (String.list_ascii_of_string s).

(** ** The [Target] interface *)

(** [virtual int Output( const LOGOG_STRING &data )]: every sink accepts a
    rendered string, changes its own state and returns a status. *)
Class Target (T : Type) : Type :=
  Output : LOGOG_STRING -> T -> int * T.

(** ** [Target::Target] and [Target::~Target] *)

Module Registry.

(** The process-wide sets behind [AllTargets()] and [AllFilters()].
    A target is identified by its address.  Each filter carries the set of
    nodes subscribed to it; [m_pFormatter] of every target is kept here as
    well. *)
Record World : Type := {
  AllTargets : gset Z;
  AllFilters : gmap Z (gset Z);
  m_pFormatter : gmap Z Z
}.

(** The statements of the constructor and of the destructor, one
    registry or filter update each. *)
Inductive Op : Type :=
| SetFormatter (this formatter : Z)
| RegistryInsert (this : Z)
| SubscribeTo (this filter : Z)
| UnsubscribeTo (this filter : Z)
| RegistryErase (this : Z).

Definition apply (o : Op) (w : World) : World :=
  match o with
  | SetFormatter this fmt =>
      {| AllTargets := AllTargets w; AllFilters := AllFilters w;
         m_pFormatter := <[this := fmt]> (m_pFormatter w) |}
  | RegistryInsert this =>
      {| AllTargets := {[this]} ∪ AllTargets w; AllFilters := AllFilters w;
         m_pFormatter := m_pFormatter w |}
  | SubscribeTo this f =>
      {| AllTargets := AllTargets w;
         AllFilters := alter (fun S => {[this]} ∪ S) f (AllFilters w);
         m_pFormatter := m_pFormatter w |}
  | UnsubscribeTo this f =>
      {| AllTargets := AllTargets w;
         AllFilters := alter (fun S => S ∖ {[this]}) f (AllFilters w);
         m_pFormatter := m_pFormatter w |}
  | RegistryErase this =>
      {| AllTargets := AllTargets w ∖ {[this]}; AllFilters := AllFilters w;
         m_pFormatter := m_pFormatter w |}
  end.

(** Every state an execution goes through, the initial one first. *)
Fixpoint run (ops : list Op) (w : World) : list World :=
  match ops with
  | [] => [w]
  | o :: r => w :: run r (apply o w)
  end.

(** Modelled from the spec: [Node::SubscribeToMultiple] and
    [Node::UnsubscribeToMultiple] (node.cpp is not part of this file)
    subscribe, respectively unsubscribe, the node to every node of the
    given collection, one after the other. *)
Definition SubscribeToMultiple (this : Z) (nodes : gmap Z (gset Z)) : list Op :=
  map (SubscribeTo this) (elements (dom nodes)).

Definition UnsubscribeToMultiple (this : Z) (nodes : gmap Z (gset Z)) : list Op :=
  map (UnsubscribeTo this) (elements (dom nodes)).

(** [Target::Target()], with [GetDefaultFormatter()] given. *)
Definition Target_ctor (default_formatter this : Z) (w : World) : list Op :=
  SetFormatter this default_formatter
    :: RegistryInsert this
    :: SubscribeToMultiple this (AllFilters w).

(** [Target::~Target()]. *)
Definition Target_dtor (this : Z) (w : World) : list Op :=
  UnsubscribeToMultiple this (AllFilters w) ++ [RegistryErase this].

Definition subscribed (this : Z) (w : World) : Prop :=
  exists f S, AllFilters w !! f = Some S /\ this ∈ S.

Definition registered (this : Z) (w : World) : Prop :=
  this ∈ AllTargets w.

(** In [ops], every occurrence of [b] has an occurrence of [a] before it. *)
Definition precedes (a b : Op) (ops : list Op) : Prop :=
  forall pre post, ops = pre ++ b :: post -> a ∈ pre.

(** A target that filters can reach is discoverable in the registry. *)
Definition discoverable (this : Z) (w : World) : Prop :=
  subscribed this w -> registered this w.

(** The operations that leave [this] in the registry. *)
Definition keeps_registered (this : Z) (o : Op) : Prop :=
  o <> RegistryErase this.

(** [this] is not among the subscribers of filter [f]. *)
Definition unsubscribed_from (this f : Z) (w : World) : Prop :=
  forall S, AllFilters w !! f = Some S -> this ∉ S.

(** One registered target subscribed to one of two filters. *)
Definition two_filters : World :=
  {| AllTargets := {[7]};
     AllFilters := <[10 := {[7]}]> (<[11 := ∅]> ∅);
     m_pFormatter := ∅ |}.

(** The state an execution ends in. *)
Definition exec (ops : list Op) (w : World) : World :=
  foldl (fun w o => apply o w) w ops.

(** A whole construction, and a whole destruction. *)
Definition construct (default_formatter this : Z) (w : World) : World :=
  exec (Target_ctor default_formatter this w) w.

Definition destroy (this : Z) (w : World) : World :=
  exec (Target_dtor this w) w.

End Registry.

(** The characters a [const LOGOG_CHAR *] names when read as a C string:
    those before the first terminator. *)
Fixpoint c_str (s : LOGOG_STRING) : LOGOG_STRING :=
  match s with
  | [] => []
  | c :: r => if Z.eqb c 0 then [] else c :: c_str r
  end.

(** ** Console sinks *)

Module Console.

Inductive LogogColor : Type :=
| COLOR_DEFAULT
| COLOR_RED
| COLOR_GREEN
| COLOR_YELLOW.

Definition FOREGROUND_GREEN : Z := 2.
Definition FOREGROUND_RED : Z := 4.
Definition FOREGROUND_INTENSITY : Z := 8.

Definition GetColorAttribute (color : LogogColor) : Z :=
  match color with
  | COLOR_RED => FOREGROUND_RED
  | COLOR_GREEN => FOREGROUND_GREEN
  | COLOR_YELLOW => Z.lor FOREGROUND_RED FOREGROUND_GREEN
  | COLOR_DEFAULT => 0
  end.

(** [NULL] is [None]. *)
Definition GetAnsiColorCode (color : LogogColor) : option LOGOG_STRING :=
  match color with
  | COLOR_RED => Some (literal "1")
  | COLOR_GREEN => Some (literal "2")
  | COLOR_YELLOW => Some (literal "3")
  | COLOR_DEFAULT => None
  end.

Definition is_default (color : LogogColor) : bool :=
  match color with COLOR_DEFAULT => true | _ => false end.

Section WithStreams.
Context (cfg : Platform).
(** [TODO_COLOR_SUPPORT] and what the [TERM] test gives when it is set. *)
Context (TODO_COLOR_SUPPORT term_supports_color : bool).
(** The C++ stream behind [LOGOG_CERR] and its [operator<<]; the state
    carries the stream's error bits. *)
Context {ostream : Type} (ostream_insert : LOGOG_STRING -> ostream -> ostream).
(** [stdout] and the console: [vprintf] with its arguments and its result,
    [fflush], and the two Windows console calls. *)
Context {stdio : Type}.
Context (vprintf : LOGOG_STRING -> list (option LOGOG_STRING) -> stdio -> int * stdio).
Context (fflush : stdio -> stdio).
Context (GetConsoleScreenBufferInfo : stdio -> Z).
Context (SetConsoleTextAttribute : Z -> stdio -> stdio).

Definition ShouldUseColor (stdout_is_tty : bool) : bool :=
  if LOGOG_FLAVOR_WINDOWS cfg then stdout_is_tty
  else if TODO_COLOR_SUPPORT then stdout_is_tty && term_supports_color
  else stdout_is_tty.

(** [ESC] is character 27. *)
Definition ansi_set : LOGOG_STRING := 27 :: literal "[0;3%sm".
Definition ansi_reset : LOGOG_STRING := 27 :: literal "[m".

(** [ColoredPrintf( color, fmt, ... )]; every [printf] result is dropped. *)
Definition ColoredPrintf (color : LogogColor) (fmt : LOGOG_STRING)
    (args : list (option LOGOG_STRING)) (out : stdio) : stdio :=
  let use_color :=
    if negb (LOGOG_FLAVOR_WINDOWS cfg) && negb (LOGOG_FLAVOR_POSIX cfg) then false
    else
      let in_color_mode := ShouldUseColor true in
      in_color_mode && negb (is_default color) in
  if negb use_color then snd (vprintf fmt args out)
  else if LOGOG_FLAVOR_WINDOWS cfg then
    let old_color_attrs := GetConsoleScreenBufferInfo out in
    let out := fflush out in
    let out :=
      SetConsoleTextAttribute
        (Z.lor (GetColorAttribute color) FOREGROUND_INTENSITY) out in
    let out := snd (vprintf fmt args out) in
    let out := fflush out in
    SetConsoleTextAttribute old_color_attrs out
  else
    let out := snd (vprintf ansi_set [GetAnsiColorCode color] out) in
    let out := snd (vprintf fmt args out) in
    snd (vprintf ansi_reset [] out).

(** The two console sinks; each object is the stream it writes to. *)
Record Cerr : Type := { cerr : ostream }.
Record Cout : Type := { cout : stdio }.

Definition Cerr_Output (data : LOGOG_STRING) (t : Cerr) : int * Cerr :=
  let t := {| cerr := ostream_insert (c_str data) (cerr t) |} in
  (0, t).

Definition Cout_Output (data : LOGOG_STRING) (t : Cout) : int * Cout :=
  let t := {| cout := ColoredPrintf COLOR_GREEN (c_str data) [] (cout t) |} in
  (0, t).

#[local] Instance Cerr_Target : Target Cerr := Cerr_Output.
#[local] Instance Cout_Target : Target Cout := Cout_Output.

End WithStreams.

(** Two [printf]s for concrete runs, on a terminal that is the list of the
    formats printed so far: one prints whatever it gets, one stops for good
    at a null argument. *)
Definition prints (fmt : LOGOG_STRING) (args : list (option LOGOG_STRING))
    (out : list LOGOG_STRING) : int * list LOGOG_STRING :=
  (0, out ++ [fmt]).

Definition null_crashes (fmt : LOGOG_STRING) (args : list (option LOGOG_STRING))
    (out : list LOGOG_STRING) : int * list LOGOG_STRING :=
  if decide (None ∈ args) then (-1, []) else (0, out ++ [fmt]).

End Console.

(** ** File sink *)

Module File.

(** The part of the C file API [LogFile] uses.  [files] holds the bytes of
    every existing file, [denied] the paths [fopen] cannot open for
    appending, [room] the number of bytes the device still accepts, and
    [fopen_log] every [fopen]/[fopen_s] call made so far, latest first. *)
Record FileSys : Type := {
  files : gmap string (list byte);
  denied : gset string;
  room : Z;
  fopen_log : list (string * string)
}.

Definition ENOENT : Z := 2.
Definition EACCES : Z := 13.

Definition logged (path mode : string) (fs : FileSys) : FileSys :=
  {| files := files fs; denied := denied fs; room := room fs;
     fopen_log := (path, mode) :: fopen_log fs |}.

(** [fopen( path, mode )]: a [FILE *] is the path it was opened on, [NULL]
    is [None].  Mode ["r"] needs the file to exist; the append modes create
    it when the path is not denied. *)
Definition fopen (path mode : string) (fs : FileSys) : option string * FileSys :=
  let fs := logged path mode fs in
  if String.eqb mode "r" then
    (if decide (is_Some (files fs !! path)) then Some path else None, fs)
  else if decide (path ∈ denied fs) then (None, fs)
  else
    match files fs !! path with
    | Some _ => (Some path, fs)
    | None =>
        (Some path,
         {| files := <[path := []]> (files fs); denied := denied fs;
            room := room fs; fopen_log := fopen_log fs |})
    end.

(** [fopen_s( &fp, path, mode )]: the error code and the pointer stored. *)
Definition fopen_s (path mode : string) (fs : FileSys) : int * option string * FileSys :=
  let '(fp, fs) := fopen path mode fs in
  match fp with
  | Some _ => (0, fp, fs)
  | None => (if String.eqb mode "r" then ENOENT else EACCES, fp, fs)
  end.

(** [fwrite( ptr, size, count, stream )]: whole items are appended while
    the device has room; the result is the number of items written.  The
    stream has no buffer of its own here: what a buffered stream reports
    when it is flushed or closed is reported by the call itself. *)
Definition fwrite (ptr : list byte) (size : Z) (count : Z) (stream : option string)
    (fs : FileSys) : Z * FileSys :=
  match stream with
  | None => (0, fs)
  | Some path =>
      let written := Z.max 0 (Z.min count (room fs / size)) in
      let bytes := take (Z.to_nat (written * size)) ptr in
      (written,
       {| files := <[path := default [] (files fs !! path) ++ bytes]> (files fs);
          denied := denied fs;
          room := room fs - written * size;
          fopen_log := fopen_log fs |})
  end.

Record LogFile : Type := {
  m_bNullTerminatesStrings : bool;
  m_bFirstTime : bool;
  m_bOpenFailed : bool;
  m_bWriteUnicodeBOM : bool;
  m_pFile : option string;
  m_pFileName : string
}.

Definition set_m_pFile (fp : option string) (f : LogFile) : LogFile :=
  {| m_bNullTerminatesStrings := m_bNullTerminatesStrings f;
     m_bFirstTime := m_bFirstTime f; m_bOpenFailed := m_bOpenFailed f;
     m_bWriteUnicodeBOM := m_bWriteUnicodeBOM f;
     m_pFile := fp; m_pFileName := m_pFileName f |}.

Definition set_m_bOpenFailed (b : bool) (f : LogFile) : LogFile :=
  {| m_bNullTerminatesStrings := m_bNullTerminatesStrings f;
     m_bFirstTime := m_bFirstTime f; m_bOpenFailed := b;
     m_bWriteUnicodeBOM := m_bWriteUnicodeBOM f;
     m_pFile := m_pFile f; m_pFileName := m_pFileName f |}.

Definition set_m_bFirstTime (b : bool) (f : LogFile) : LogFile :=
  {| m_bNullTerminatesStrings := m_bNullTerminatesStrings f;
     m_bFirstTime := b; m_bOpenFailed := m_bOpenFailed f;
     m_bWriteUnicodeBOM := m_bWriteUnicodeBOM f;
     m_pFile := m_pFile f; m_pFileName := m_pFileName f |}.

(** The name up to its terminator, as the two loops of the constructor
    count and copy it. *)
Fixpoint copy_name (s : string) : string :=
  match s with
  | EmptyString => EmptyString
  | String a r =>
      if Ascii.eqb a Ascii.zero then EmptyString else String a (copy_name r)
  end.

Section WithPlatform.
Context (cfg : Platform).

(** [LogFile::LogFile( sFileName )]. *)
Definition LogFile_ctor (sFileName : string) : LogFile :=
  {| m_bNullTerminatesStrings := false;
     m_bFirstTime := true;
     m_bOpenFailed := false;
     m_bWriteUnicodeBOM := LOGOG_UNICODE cfg;
     m_pFile := None;
     m_pFileName := copy_name sFileName |}.

(** [LogFile::InternalOutput( nSize, pData )], [pData] given as the bytes
    it points to. *)
Definition InternalOutput (nSize : Z) (pData : list byte) (f : LogFile)
    (fs : FileSys) : int * FileSys :=
  let '(result, fs) :=
    fwrite pData (Z.pos (sizeof_LOGOG_CHAR cfg)) nSize (m_pFile f) fs in
  if negb (Z.eqb result nSize) then (-1, fs) else (0, fs).

(** The first [char] of the union initialised with [0x01020304]. *)
Definition bDetectEndian_c0 : byte :=
  hd x00 (Memory.encode cfg 4 0x01020304).

(** [LogFile::WriteUnicodeBOM()]. *)
Definition WriteUnicodeBOM (f : LogFile) (fs : FileSys) : FileSys :=
  let bIsLittleEndian := negb (Z.eqb (Memory.Z_of_byte bDetectEndian_c0) 1) in
  match sizeof_LOGOG_CHAR cfg with
  | 1%positive => fs
  | 2%positive =>
      if bIsLittleEndian
      then snd (InternalOutput 1 [xff; xfe; x00] f fs)
      else snd (InternalOutput 1 [xfe; xff; x00] f fs)
  | 4%positive =>
      if bIsLittleEndian
      then snd (InternalOutput 1 [xff; xfe; x00; x00; x00] f fs)
      else snd (InternalOutput 1 [x00; x00; xfe; xff; x00] f fs)
  | _ => fs
  end.

(** What follows the two flavors of the second [fopen] in [Open]. *)
Definition Open_finish (bFileAlreadyExists : bool) (f : LogFile)
    (fs : FileSys) : int * LogFile * FileSys :=
  match m_pFile f with
  | None => (-1, set_m_bOpenFailed true f, fs)
  | Some _ =>
      let fs :=
        if LOGOG_UNICODE cfg
        then (if negb bFileAlreadyExists then WriteUnicodeBOM f fs else fs)
        else fs in
      (0, f, fs)
  end.

(** [LogFile::Open()]. *)
Definition Open (f : LogFile) (fs : FileSys) : int * LogFile * FileSys :=
  let '(fpTest, fs) :=
    if LOGOG_FLAVOR_WINDOWS cfg
    then (let '(_, fp, fs) := fopen_s (m_pFileName f) "r" fs in (fp, fs))
    else fopen (m_pFileName f) "r" fs in
  let bFileAlreadyExists :=
    match fpTest with Some _ => true | None => false end in
  if LOGOG_FLAVOR_WINDOWS cfg then
    let mode := if LOGOG_UNICODE cfg then "ab, ccs=UNICODE"%string else "ab"%string in
    let '(nError, fp, fs) := fopen_s (m_pFileName f) mode fs in
    let f := set_m_pFile fp f in
    if negb (Z.eqb nError 0) then (nError, f, fs)
    else Open_finish bFileAlreadyExists f fs
  else
    let '(fp, fs) := fopen (m_pFileName f) "ab+" fs in
    let f := set_m_pFile fp f in
    Open_finish bFileAlreadyExists f fs.

(** [LogFile::Output( data )]. *)
Definition LogFile_Output (data : LOGOG_STRING) (st : LogFile * FileSys)
    : int * (LogFile * FileSys) :=
  let '(f, fs) := st in
  let write (f : LogFile) (fs : FileSys) :=
    let '(r, fs) :=
      InternalOutput (Z.of_nat (length data)) (Memory.string_bytes cfg data) f fs in
    (r, (f, fs)) in
  if m_bOpenFailed f then (-1, (f, fs))
  else if m_bFirstTime f then
    let '(result, f, fs) := Open f fs in
    if negb (Z.eqb result 0) then (result, (f, fs))
    else write (set_m_bFirstTime false f) fs
  else write f fs.

#[local] Instance LogFile_Target : Target (LogFile * FileSys) := LogFile_Output.

(** The number of calls in the log that open [path] for appending. *)
Fixpoint count_append_opens (path : string) (log : list (string * string)) : nat :=
  match log with
  | [] => O
  | (p, mode) :: r =>
      if String.eqb p path && negb (String.eqb mode "r")
      then S (count_append_opens path r)
      else count_append_opens path r
  end.

Definition append_opens (path : string) (fs : FileSys) : nat :=
  count_append_opens path (fopen_log fs).

End WithPlatform.

(** A file system with one path that cannot be opened, and an empty one. *)
Definition read_only_fs : FileSys :=
  {| files := ∅; denied := {["/ro/log"%string]}; room := 1000; fopen_log := [] |}.

Definition empty_fs : FileSys :=
  {| files := ∅; denied := ∅; room := 1000; fopen_log := [] |}.

(** The two loops of [LogFile::LogFile] one by one.  [count_name] is
    [nNameLength] when the first loop ends, [nNameLength] its value after
    the increment for the terminator, which is the size allocated;
    [copy_loop] is the sequence of characters the second loop stores through
    [m_pOut], the last one being the terminator that ends it.  The end of
    the string stands for the terminator of the C string. *)
Fixpoint count_name (s : string) : Z :=
  match s with
  | EmptyString => 0
  | String a r => if Ascii.eqb a Ascii.zero then 0 else 1 + count_name r
  end.

Definition nNameLength (s : string) : Z := count_name s + 1.

Fixpoint copy_loop (s : string) : list Ascii.ascii :=
  match s with
  | EmptyString => [Ascii.zero]
  | String a r =>
      if Ascii.eqb a Ascii.zero then [Ascii.zero] else a :: copy_loop r
  end.

(** [Output] called on each string in turn: the statuses and the final
    state. *)
Fixpoint outputs (cfg : Platform) (l : list LOGOG_STRING) (st : LogFile * FileSys)
    : list int * (LogFile * FileSys) :=
  match l with
  | [] => ([], st)
  | data :: r =>
      let '(e, st) := LogFile_Output cfg data st in
      let '(es, st) := outputs cfg r st in
      (e :: es, st)
  end.

(** A [LogFile] after a successful first [Output], and a file system
    holding its empty file on a device with [n] bytes of room. *)
Definition opened (cfg : Platform) (sFileName : string) : LogFile :=
  set_m_bFirstTime false
    (set_m_pFile (Some (copy_name sFileName)) (LogFile_ctor cfg sFileName)).

Definition one_file (n : Z) : FileSys :=
  {| files := <["log"%string := []]> ∅; denied := ∅; room := n; fopen_log := [] |}.

End File.

(** ** Ring buffer sink *)

Module Buffer.
Import Memory.

(** A [LogBuffer] over a downstream target of type [T].  [m_pOutputTarget]
    is [None] for a null pointer and otherwise holds the state of the
    target pointed to; [memory] is the memory the three pointers point
    into. *)
Record LogBuffer (T : Type) : Type := {
  m_pStart : Z;
  m_pCurrent : Z;
  m_pEnd : Z;
  m_nSize : Z;
  m_pOutputTarget : option T;
  memory : gmap Z byte
}.
Arguments m_pStart {T} _.
Arguments m_pCurrent {T} _.
Arguments m_pEnd {T} _.
Arguments m_nSize {T} _.
Arguments m_pOutputTarget {T} _.
Arguments memory {T} _.

(** How a loop over the buffered records ends: by the [return] inside it,
    by its condition turning false, or by the recursion budget running
    out. *)
Inductive LoopExit (T : Type) : Type :=
| Returned (nError : int) (t : T)
| Finished (t : T)
| Unfinished.
Arguments Returned {T} _ _.
Arguments Finished {T} _.
Arguments Unfinished {T}.

Section WithTarget.
Context (cfg : Platform).
Context {T : Type} `{Target T}.

Definition set_m_pCurrent (p : Z) (b : LogBuffer T) : LogBuffer T :=
  {| m_pStart := m_pStart b; m_pCurrent := p; m_pEnd := m_pEnd b;
     m_nSize := m_nSize b; m_pOutputTarget := m_pOutputTarget b;
     memory := memory b |}.

Definition set_memory (h : gmap Z byte) (b : LogBuffer T) : LogBuffer T :=
  {| m_pStart := m_pStart b; m_pCurrent := m_pCurrent b; m_pEnd := m_pEnd b;
     m_nSize := m_nSize b; m_pOutputTarget := m_pOutputTarget b;
     memory := h |}.

(** [LogBuffer::SetTarget( t )]; also used for the new state of the
    target after a call of its [Output]. *)
Definition SetTarget (t : T) (b : LogBuffer T) : LogBuffer T :=
  {| m_pStart := m_pStart b; m_pCurrent := m_pCurrent b; m_pEnd := m_pEnd b;
     m_nSize := m_nSize b; m_pOutputTarget := Some t;
     memory := memory b |}.

(** A value converted to [size_t]. *)
Definition to_size_t (v : Z) : Z := v mod 256 ^ WORD cfg.

(** [LogBuffer::Allocate( size )]; [base] is what [Object::Allocate]
    returns. *)
Definition Allocate (base size : Z) (b : LogBuffer T) : LogBuffer T :=
  {| m_pStart := base; m_pCurrent := base;
     m_pEnd := base + CHAR cfg * size;
     m_nSize := size; m_pOutputTarget := m_pOutputTarget b;
     memory := memory b |}.

(** [LogBuffer::LogBuffer( pTarget, s )] in memory [h]. *)
Definition LogBuffer_ctor (pTarget : option T) (s : Z) (base : Z)
    (h : gmap Z byte) : LogBuffer T :=
  Allocate base s
    {| m_pStart := 0; m_pCurrent := 0; m_pEnd := 0; m_nSize := 0;
       m_pOutputTarget := pTarget; memory := h |}.

Fixpoint read_chars (h : gmap Z byte) (p : Z) (n : nat) : LOGOG_STRING :=
  match n with
  | O => []
  | S k => load_char cfg h p :: read_chars h (p + CHAR cfg) k
  end.

(** Modelled from the spec: [String::assign( first, last )] (class
    [String] is not part of this file) makes the string hold the
    characters of the range from [first] up to [last]; a range that is
    empty or inverted gives the empty string. *)
Definition String_assign (h : gmap Z byte) (first last : Z) : LOGOG_STRING :=
  read_chars h first (Z.to_nat ((last - first) / CHAR cfg)).

(** The [while] loop of [Dump], from [pCurrent] on. *)
Fixpoint Dump_loop (fuel : nat) (h : gmap Z byte) (m_pCurrent : Z)
    (pCurrent : Z) (t : T) : LoopExit T :=
  if pCurrent <? m_pCurrent then
    match fuel with
    | O => Unfinished
    | S fuel =>
        let pSize := pCurrent in
        let pCurrent := pSize + WORD cfg in
        let sOut :=
          String_assign h pCurrent
            (pCurrent + CHAR cfg * load_size_t cfg h pSize - CHAR cfg) in
        let '(nError, t) := Output sOut t in
        if negb (Z.eqb nError 0) then Returned nError t
        else
          Dump_loop fuel h m_pCurrent
            (pCurrent + CHAR cfg * load_size_t cfg h pSize) t
    end
  else Finished t.

(** [LogBuffer::Dump()].  Every turn of the loop moves [pCurrent] forward
    by a machine word at least, so the distance to [m_pCurrent] bounds
    the number of turns. *)
Definition Dump (b : LogBuffer T) : int * LogBuffer T :=
  match m_pOutputTarget b with
  | None => (-1, b)
  | Some t =>
      match
        Dump_loop (Z.to_nat (m_pCurrent b - m_pStart b)) (memory b)
          (m_pCurrent b) (m_pStart b) t
      with
      | Returned nError t => (nError, SetTarget t b)
      | Finished t => (0, set_m_pCurrent (m_pStart b) (SetTarget t b))
      | Unfinished => (0, b)
      end
  end.

(** [while ( size-- ) *m_pCurrent++ = *pChars++;] *)
Fixpoint copy_chars (size : nat) (pChars : LOGOG_STRING) (h : gmap Z byte)
    (cur : Z) : gmap Z byte * Z :=
  match size with
  | O => (h, cur)
  | S k =>
      copy_chars k (tl pChars) (store_char cfg h cur (hd 0 pChars))
        (cur + CHAR cfg)
  end.

(** [LogBuffer::Insert( pChars, size )].  Addresses are integers without
    an upper bound here: the sum of the first test is the one the machine
    computes as long as it stays below the end of its address space, which
    it does for every size that is the length of an array in memory. *)
Definition Insert (pChars : LOGOG_STRING) (size : Z) (b : LogBuffer T)
    : int * LogBuffer T :=
  let b :=
    if m_pCurrent b + CHAR cfg * size >=? m_pEnd b then snd (Dump b) else b in
  if size >? to_size_t ((m_pEnd b - m_pStart b) / CHAR cfg) then (-1, b)
  else
    let pSize := m_pCurrent b in
    let h := store_size_t cfg (memory b) pSize size in
    let '(h, cur) := copy_chars (Z.to_nat size) pChars h (pSize + WORD cfg) in
    (0, set_m_pCurrent cur (set_memory h b)).

(** [LogBuffer::Output( data )]. *)
Definition LogBuffer_Output (data : LOGOG_STRING) (b : LogBuffer T)
    : int * LogBuffer T :=
  Insert data (Z.of_nat (length data)) b.

#[local] Instance LogBuffer_Target : Target (LogBuffer T) := LogBuffer_Output.

(** [LogBuffer::Deallocate()] and [LogBuffer::~LogBuffer()]. *)
Definition Deallocate (b : LogBuffer T) : LogBuffer T :=
  {| m_pStart := m_pStart b; m_pCurrent := m_pCurrent b; m_pEnd := m_pEnd b;
     m_nSize := 0; m_pOutputTarget := m_pOutputTarget b;
     memory := memory b |}.

Definition LogBuffer_dtor (b : LogBuffer T) : LogBuffer T :=
  Deallocate (snd (Dump b)).

(** *** Notions the statements below are written with *)

(** The strings the records lying between [p] and [m_pCurrent] are
    forwarded as, first record first. *)
Fixpoint forwarded (fuel : nat) (h : gmap Z byte) (m_pCurrent p : Z)
    : list LOGOG_STRING :=
  if p <? m_pCurrent then
    match fuel with
    | O => []
    | S fuel =>
        String_assign h (p + WORD cfg)
          (p + WORD cfg + CHAR cfg * load_size_t cfg h p - CHAR cfg)
          :: forwarded fuel h m_pCurrent
               (p + WORD cfg + CHAR cfg * load_size_t cfg h p)
    end
  else [].

Definition buffered (b : LogBuffer T) : list LOGOG_STRING :=
  forwarded (Z.to_nat (m_pCurrent b - m_pStart b)) (memory b)
    (m_pCurrent b) (m_pStart b).

(** Handing strings to the target one after the other, up to and
    including the first one its [Output] fails on. *)
Fixpoint replay (l : list LOGOG_STRING) (t : T) : option int * T :=
  match l with
  | [] => (None, t)
  | s :: r =>
      let '(nError, t) := Output s t in
      if negb (Z.eqb nError 0) then (Some nError, t) else replay r t
  end.

(** [Output] of the buffer on each record in turn: the statuses and the
    final buffer. *)
Fixpoint insert_all (l : list LOGOG_STRING) (b : LogBuffer T)
    : list int * LogBuffer T :=
  match l with
  | [] => ([], b)
  | s :: r =>
      let '(e, b) := LogBuffer_Output s b in
      let '(es, b) := insert_all r b in
      (e :: es, b)
  end.

(** The bytes a list of records takes in the arena, one machine word of
    header for each. *)
Definition footprint (l : list LOGOG_STRING) : Z :=
  foldr (fun s acc => WORD cfg + CHAR cfg * Z.of_nat (length s) + acc) 0 l.

(** The records [l] lie one after the other from [p] up to [q]: each is
    its length in a machine word followed by its characters. *)
Fixpoint holds (h : gmap Z byte) (p : Z) (l : list LOGOG_STRING) (q : Z) : Prop :=
  match l with
  | [] => p = q
  | s :: r =>
      load_size_t cfg h p = Z.of_nat (length s)
      /\ read_chars h (p + WORD cfg) (length s) = s
      /\ holds h (p + WORD cfg + CHAR cfg * Z.of_nat (length s)) r q
  end.

(** What [Allocate] establishes and [Insert] and [Dump] keep. *)
Definition well_formed (b : LogBuffer T) : Prop :=
  m_pEnd b = m_pStart b + CHAR cfg * m_nSize b
  /\ 0 <= m_nSize b < 256 ^ WORD cfg
  /\ m_pStart b <= m_pCurrent b.

End WithTarget.

(** A record as [Dump] forwards it: all its characters but the last. *)
Definition without_last (s : LOGOG_STRING) : LOGOG_STRING := removelast s.

(** Two downstream targets for concrete runs: one records what it is
    handed and succeeds, one fails on every call. *)
Definition Recorder : Type := list LOGOG_STRING.
#[export] Instance Recorder_Target : Target Recorder :=
  fun data t => (0, t ++ [data]).

Inductive Broken : Type := broken (calls : nat).
#[export] Instance Broken_Target : Target Broken :=
  fun data t => match t with broken n => (-1, broken (S n)) end.

(** A buffer of sixteen one-byte characters at address 4096 on the POSIX
    build, and the same after [Insert] of ["ab"]. *)
Definition small_buffer {T : Type} (pTarget : option T) : LogBuffer T :=
  LogBuffer_ctor posix64 pTarget 16 4096 ∅.

Definition one_record {T : Type} `{Target T} (pTarget : option T) : LogBuffer T :=
  snd (Insert posix64 (literal "ab") 2 (small_buffer pTarget)).

End Buffer.

(** * Properties *)

(** ** Target lifecycle *)

Module RegistryFacts.
Import Registry.

(** The state after the last operation. *)
Lemma run_app (P : World -> Prop) (ops1 ops2 : list Op) (w : World) :
  Forall P (run (ops1 ++ ops2) w) <->
  Forall P (run ops1 w) /\ Forall P (run ops2 (foldl (fun w o => apply o w) w ops1)).
Proof.
  revert w. induction ops1 as [|o ops1 IH]; intros w; simpl.
  - rewrite Forall_singleton. split.
    + intros HP. split; [|done].
      destruct ops2; simpl in HP; by inversion HP.
    + tauto.
  - rewrite !Forall_cons, IH. tauto.
Qed.

Lemma apply_keeps_registered (this : Z) (o : Op) (w : World) :
  keeps_registered this o -> registered this w -> registered this (apply o w).
Proof.
  unfold keeps_registered, registered.
  destruct o as [t f|t|t f|t f|t]; simpl; intros Hne Hin;
    try done; set_solver.
Qed.

Lemma run_keeps_registered (this : Z) (ops : list Op) (w : World) :
  Forall (keeps_registered this) ops -> registered this w ->
  Forall (registered this) (run ops w)
  /\ registered this (foldl (fun w o => apply o w) w ops).
Proof.
  revert w. induction ops as [|o ops IH]; intros w Hops Hw; simpl.
  - split; [by apply Forall_singleton | done].
  - apply Forall_cons in Hops as [Ho Hops].
    destruct (IH (apply o w) Hops (apply_keeps_registered _ _ _ Ho Hw)) as [H1 H2].
    split; [by apply Forall_cons | done].
Qed.

Lemma subscribes_keep_registered (this : Z) (ks : list Z) :
  Forall (keeps_registered this) (map (SubscribeTo this) ks).
Proof. apply Forall_forall. intros o [k [Ho _]]%list_elem_of_fmap. by rewrite Ho. Qed.

Lemma unsubscribes_keep_registered (this : Z) (ks : list Z) :
  Forall (keeps_registered this) (map (UnsubscribeTo this) ks).
Proof. apply Forall_forall. intros o [k [Ho _]]%list_elem_of_fmap. by rewrite Ho. Qed.

Lemma unsubscribe_this (this f : Z) (w : World) :
  unsubscribed_from this f (apply (UnsubscribeTo this f) w).
Proof.
  intros S. simpl. rewrite lookup_alter_eq.
  destruct (AllFilters w !! f) as [S0|]; simpl; [|done].
  intros [= HS]. rewrite <- HS. set_solver.
Qed.

Lemma unsubscribe_other (this f g : Z) (w : World) :
  unsubscribed_from this f w ->
  unsubscribed_from this f (apply (UnsubscribeTo this g) w).
Proof.
  intros Hw S. simpl. destruct (decide (g = f)) as [->|Hne].
  - rewrite lookup_alter_eq.
    destruct (AllFilters w !! f) as [S0|] eqn:Hf; simpl; [|done].
    intros [= HS]. rewrite <- HS. specialize (Hw S0 Hf). set_solver.
  - rewrite lookup_alter_ne by done. apply Hw.
Qed.

Lemma unsubscribes_keep (this f : Z) (ks : list Z) (w : World) :
  unsubscribed_from this f w ->
  unsubscribed_from this f
    (foldl (fun w o => apply o w) w (map (UnsubscribeTo this) ks)).
Proof.
  revert w. induction ks as [|k ks IH]; intros w Hw; simpl; [done|].
  apply IH. by apply unsubscribe_other.
Qed.

Lemma unsubscribes_reach (this f : Z) (ks : list Z) (w : World) :
  f ∈ ks ->
  unsubscribed_from this f
    (foldl (fun w o => apply o w) w (map (UnsubscribeTo this) ks)).
Proof.
  revert w. induction ks as [|k ks IH]; intros w Hin; simpl.
  - by apply elem_of_nil in Hin.
  - apply elem_of_cons in Hin as [->|Hin].
    + apply unsubscribes_keep, unsubscribe_this.
    + by apply IH.
Qed.

Lemma unsubscribes_dom (this : Z) (ks : list Z) (w : World) :
  dom (AllFilters (foldl (fun w o => apply o w) w (map (UnsubscribeTo this) ks)))
  = dom (AllFilters w).
Proof.
  revert w. induction ks as [|k ks IH]; intros w; simpl; [done|].
  rewrite IH. simpl. apply leibniz_equiv, dom_alter.
Qed.

Lemma split_at_last (l pre post : list Op) (x : Op) :
  x ∉ l -> l ++ [x] = pre ++ x :: post -> pre = l /\ post = [].
Proof.
  revert pre. induction l as [|a l IH]; intros pre Hnot Heq.
  - destruct pre as [|b pre]; simpl in Heq.
    + inversion Heq. done.
    + inversion Heq as [[Hb Hpre]]. by destruct pre.
  - destruct pre as [|b pre]; simpl in Heq.
    + inversion Heq as [[Ha Hl]]. subst a. set_solver.
    + inversion Heq as [[Ha Hl]].
      destruct (IH pre) as [Hpre Hpost]; [set_solver | done |].
      by rewrite Hpre, Hpost.
Qed.

Lemma subscribe_this (this f : Z) (w : World) :
  is_Some (AllFilters w !! f) ->
  exists S, AllFilters (apply (SubscribeTo this f) w) !! f = Some S /\ this ∈ S.
Proof.
  intros [S0 Hf]. exists ({[this]} ∪ S0). simpl.
  rewrite lookup_alter_eq, Hf. split; [done|]. set_solver.
Qed.

Lemma subscribe_other (this f g : Z) (w : World) :
  (exists S, AllFilters w !! f = Some S /\ this ∈ S) ->
  exists S, AllFilters (apply (SubscribeTo this g) w) !! f = Some S /\ this ∈ S.
Proof.
  intros (S0 & Hf & Hin). simpl. destruct (decide (g = f)) as [->|Hne].
  - exists ({[this]} ∪ S0). rewrite lookup_alter_eq, Hf. split; [done|]. set_solver.
  - exists S0. by rewrite lookup_alter_ne.
Qed.

Lemma subscribes_keep (this f : Z) (ks : list Z) (w : World) :
  (exists S, AllFilters w !! f = Some S /\ this ∈ S) ->
  exists S,
    AllFilters (foldl (fun w o => apply o w) w (map (SubscribeTo this) ks)) !! f = Some S
    /\ this ∈ S.
Proof.
  revert w. induction ks as [|k ks IH]; intros w Hw; simpl; [done|].
  apply IH. by apply subscribe_other.
Qed.

Lemma subscribes_reach (this f : Z) (ks : list Z) (w : World) :
  f ∈ ks -> is_Some (AllFilters w !! f) ->
  exists S,
    AllFilters (foldl (fun w o => apply o w) w (map (SubscribeTo this) ks)) !! f = Some S
    /\ this ∈ S.
Proof.
  revert w. induction ks as [|k ks IH]; intros w Hin Hsome; simpl.
  - by apply elem_of_nil in Hin.
  - apply elem_of_cons in Hin as [Hk|Hin].
    + subst k. by apply subscribes_keep, subscribe_this.
    + apply IH; [done|]. simpl. destruct Hsome as [S0 Hf].
      destruct (decide (k = f)) as [Hk|Hne].
      * subst k. rewrite lookup_alter_eq, Hf. simpl. eauto.
      * rewrite lookup_alter_ne by done. eauto.
Qed.

(** C7: [Target::Target] does insert the target into the registry, and
    does so before it subscribes it to any filter, which it then does for
    every filter there is; [Target::~Target] does unsubscribe the target
    from every filter and only then removes it from the registry, as its
    one and last step.  Afterwards the target is registered and a subscriber
    of every filter, respectively neither registered nor subscribed.  So in
    every state either of them goes through, a target that is subscribed to
    a filter is also in the registry (on construction given that this held
    before, on destruction given that the target was registered). *)
Theorem Target_lifecycle_order (default_formatter this : Z) (w : World) :
  (exists pre subs,
     Target_ctor default_formatter this w = pre ++ RegistryInsert this :: subs
     /\ (forall f, SubscribeTo this f ∉ pre)
     /\ (forall f, f ∈ dom (AllFilters w) -> SubscribeTo this f ∈ subs))
  /\ (exists pre,
        Target_dtor this w = pre ++ [RegistryErase this]
        /\ (RegistryErase this ∉ pre)
        /\ (forall f, f ∈ dom (AllFilters w) -> UnsubscribeTo this f ∈ pre))
  /\ (registered this (construct default_formatter this w)
      /\ forall f, f ∈ dom (AllFilters w) ->
           exists S, AllFilters (construct default_formatter this w) !! f = Some S
                     /\ this ∈ S)
  /\ (~ registered this (destroy this w) /\ ~ subscribed this (destroy this w))
  /\ (forall f, precedes (RegistryInsert this) (SubscribeTo this f)
                  (Target_ctor default_formatter this w))
  /\ (forall pre post,
        Target_dtor this w = pre ++ RegistryErase this :: post ->
        post = [] /\ forall f, f ∈ dom (AllFilters w) -> UnsubscribeTo this f ∈ pre)
  /\ (discoverable this w ->
      Forall (discoverable this) (run (Target_ctor default_formatter this w) w))
  /\ (registered this w ->
      Forall (discoverable this) (run (Target_dtor this w) w)).
Proof.
  assert (forall f, f ∈ dom (AllFilters w) ->
            UnsubscribeTo this f ∈ UnsubscribeToMultiple this (AllFilters w)) as Hunsubs.
  { intros f Hf. apply list_elem_of_fmap. exists f. split; [done|].
    by apply elem_of_elements. }
  assert (RegistryErase this ∉ UnsubscribeToMultiple this (AllFilters w)) as Hnoerase.
  { intros [k [? _]]%list_elem_of_fmap. discriminate. }
  assert (~ subscribed this
            (foldl (fun w o => apply o w) w (UnsubscribeToMultiple this (AllFilters w))))
    as Hnosub.
  { intros (f & S & Hf & Hin).
    assert (f ∈ dom (AllFilters w)) as Hdom.
    { rewrite <- (unsubscribes_dom this (elements (dom (AllFilters w))) w).
      apply elem_of_dom. eauto. }
    eapply (unsubscribes_reach this f (elements (dom (AllFilters w))) w);
      [by apply elem_of_elements | exact Hf | exact Hin]. }
  split; [|split; [|split; [|split; [|split; [|split; [|split]]]]]].
  - exists [SetFormatter this default_formatter], (SubscribeToMultiple this (AllFilters w)).
    split; [done|]. split.
    + intros f Hin. apply list_elem_of_singleton in Hin. discriminate.
    + intros f Hf. apply list_elem_of_fmap. exists f. split; [done|].
      by apply elem_of_elements.
  - exists (UnsubscribeToMultiple this (AllFilters w)). done.
  - unfold construct, exec, Target_ctor. simpl. split.
    + apply run_keeps_registered.
      * apply subscribes_keep_registered.
      * unfold registered. simpl. set_solver.
    + intros f Hf. apply subscribes_reach.
      * by apply elem_of_elements.
      * simpl. by apply elem_of_dom.
  - unfold destroy, exec, Target_dtor. rewrite foldl_app. simpl. split.
    + unfold registered. simpl. set_solver.
    + exact Hnosub.
  - intros f pre post Heq. unfold Target_ctor in Heq.
    destruct pre as [|a [|b pre]]; simpl in Heq; try discriminate.
    injection Heq as _ Hb _. rewrite <- Hb. set_solver.
  - intros pre post Heq. unfold Target_dtor in Heq.
    apply split_at_last in Heq as [Hpre Hpost]; [|done].
    split; [done|]. by rewrite Hpre.
  - intros Hw. unfold Target_ctor. simpl.
    apply Forall_cons. split; [done|].
    apply Forall_cons. split; [exact Hw|].
    eapply Forall_impl.
    + apply run_keeps_registered.
      * apply subscribes_keep_registered.
      * unfold registered. simpl. set_solver.
    + intros w' Hreg _. exact Hreg.
  - intros Hw. unfold Target_dtor. apply run_app. split.
    + eapply Forall_impl.
      * apply run_keeps_registered;
          [apply unsubscribes_keep_registered | exact Hw].
      * intros w' Hreg _. exact Hreg.
    + simpl. apply Forall_cons. split.
      * intros _. apply run_keeps_registered;
          [apply unsubscribes_keep_registered | exact Hw].
      * apply Forall_singleton. intros Hsub. exfalso. by apply Hnosub.
Qed.

Lemma Target_lifecycle_order_witness :
  Forall (discoverable 8) (run (Target_ctor 1 8 two_filters) two_filters)
  /\ Forall (discoverable 7) (run (Target_dtor 7 two_filters) two_filters).
Proof.
  destruct (Target_lifecycle_order 1 8 two_filters)
    as (_ & _ & _ & _ & _ & _ & Hctor & _).
  destruct (Target_lifecycle_order 1 7 two_filters)
    as (_ & _ & _ & _ & _ & _ & _ & Hdtor).
  split.
  - apply Hctor. intros (f & S & Hf & Hin). exfalso. simpl in Hf.
    destruct (decide (f = 10)) as [->|H10].
    + rewrite lookup_insert_eq in Hf. injection Hf as <-.
      apply elem_of_singleton in Hin. discriminate.
    + rewrite lookup_insert_ne in Hf by done.
      destruct (decide (f = 11)) as [->|H11].
      * rewrite lookup_insert_eq in Hf. injection Hf as <-.
        by apply not_elem_of_empty in Hin.
      * rewrite lookup_insert_ne in Hf by done.
        rewrite lookup_empty in Hf. discriminate.
  - apply Hdtor. unfold registered. simpl. by apply elem_of_singleton.
Defined.

End RegistryFacts.

(** ** Console sinks *)

Module ConsoleFacts.
Import Console.

(** C9: for every input string and whatever the stream operations do with
    it, [Cerr::Output] and [Cout::Output] return 0; the results of the
    writes take no part in the status. *)
Theorem console_Output_returns_zero (cfg : Platform)
    (TODO_COLOR_SUPPORT term_supports_color : bool)
    (ostream : Type) (ostream_insert : LOGOG_STRING -> ostream -> ostream)
    (stdio : Type)
    (vprintf : LOGOG_STRING -> list (option LOGOG_STRING) -> stdio -> int * stdio)
    (fflush : stdio -> stdio)
    (GetConsoleScreenBufferInfo : stdio -> Z)
    (SetConsoleTextAttribute : Z -> stdio -> stdio)
    (data : LOGOG_STRING) (e : Cerr (ostream := ostream)) (o : Cout (stdio := stdio)) :
  fst (Cerr_Output ostream_insert data e) = 0
  /\ fst (Cout_Output cfg TODO_COLOR_SUPPORT term_supports_color vprintf fflush
            GetConsoleScreenBufferInfo SetConsoleTextAttribute data o) = 0.
Proof. split; reflexivity. Qed.

End ConsoleFacts.

(** ** File sink *)

Module FileFacts.
Import File.

Section WithPlatform.
Context (cfg : Platform).

(** Once the failure flag is set, [Output] does nothing but fail. *)
Lemma Output_after_failure (data : LOGOG_STRING) (f : LogFile) (fs : FileSys) :
  m_bOpenFailed f = true ->
  LogFile_Output cfg data (f, fs) = (-1, (f, fs)).
Proof. intros Hf. unfold LogFile_Output. by rewrite Hf. Qed.

Lemma fopen_denied (path mode : string) (fs : FileSys) :
  mode <> "r"%string -> path ∈ denied fs ->
  fopen path mode fs = (None, logged path mode fs).
Proof.
  intros Hmode Hpath. unfold fopen.
  destruct (String.eqb_spec mode "r") as [->|_]; [done|].
  simpl. by rewrite decide_True.
Qed.

Lemma fopen_r_fst (path : string) (fs : FileSys) :
  exists fp, fopen path "r" fs = (fp, logged path "r" fs).
Proof. unfold fopen. simpl. eauto. Qed.

(** Where the flag comes from: without [LOGOG_FLAVOR_WINDOWS], a first
    [Output] on a path that cannot be opened fails, sets the flag and
    has tried the append-open once. *)
Lemma Output_open_failure_posix (data : LOGOG_STRING) (f : LogFile) (fs : FileSys) :
  LOGOG_FLAVOR_WINDOWS cfg = false ->
  m_bOpenFailed f = false -> m_bFirstTime f = true ->
  m_pFileName f ∈ denied fs ->
  exists f' fs',
    LogFile_Output cfg data (f, fs) = (-1, (f', fs'))
    /\ m_bOpenFailed f' = true
    /\ append_opens (m_pFileName f) fs' = S (append_opens (m_pFileName f) fs).
Proof.
  intros Hw Hfail Hfirst Hden.
  unfold LogFile_Output, Open. rewrite Hfail, Hfirst, Hw.
  destruct (fopen_r_fst (m_pFileName f) fs) as [fp ->].
  rewrite fopen_denied; [|done|done].
  simpl. eexists _, _. split; [reflexivity|]. split; [done|].
  unfold append_opens. simpl. by rewrite String.eqb_refl.
Qed.

(** No later call opens anything or succeeds. *)
Lemma Output_failure_is_permanent (data1 data2 : LOGOG_STRING)
    (f : LogFile) (fs : FileSys) :
  LOGOG_FLAVOR_WINDOWS cfg = false ->
  m_bOpenFailed f = false -> m_bFirstTime f = true ->
  m_pFileName f ∈ denied fs ->
  let st1 := snd (LogFile_Output cfg data1 (f, fs)) in
  LogFile_Output cfg data2 st1 = (-1, st1).
Proof.
  intros Hw Hfail Hfirst Hden.
  destruct (Output_open_failure_posix data1 f fs Hw Hfail Hfirst Hden)
    as (f' & fs' & -> & Hflag & _).
  simpl. by apply Output_after_failure.
Qed.

End WithPlatform.

(** C5 (the code departs from it): with [LOGOG_FLAVOR_WINDOWS], [Open]
    returns the error of [fopen_s] before [m_bOpenFailed] is set, so the
    second [Output] on a path that cannot be opened fails as the first did
    but has opened the path a second time. *)
Theorem Output_windows_opens_again :
  let st0 := (LogFile_ctor windows_unicode "/ro/log", read_only_fs) in
  let r1 := LogFile_Output windows_unicode (literal "hi") st0 in
  let r2 := LogFile_Output windows_unicode (literal "hi") (snd r1) in
  fst r1 = EACCES /\ fst r2 = EACCES
  /\ m_bOpenFailed (fst (snd r1)) = false
  /\ append_opens "/ro/log" (snd (snd r1)) = 1%nat
  /\ append_opens "/ro/log" (snd (snd r2)) = 2%nat.
Proof. vm_compute. repeat split. Qed.

Section ByteOrderMark.
Context (cfg : Platform).

Lemma probe_little_endian :
  negb (Z.eqb (Memory.Z_of_byte (bDetectEndian_c0 cfg)) 1) = host_little_endian cfg.
Proof.
  unfold bDetectEndian_c0, Memory.encode.
  by destruct (host_little_endian cfg).
Qed.

Lemma fopen_s_r (path : string) (fs : FileSys) :
  fopen_s path "r" fs
  = (match fst (fopen path "r" fs) with Some _ => 0 | None => ENOENT end,
     fst (fopen path "r" fs), logged path "r" fs).
Proof.
  unfold fopen_s. destruct (fopen_r_fst path fs) as [fp ->].
  by destruct fp.
Qed.

(** Opening for appending a path that is not denied. *)
Lemma fopen_append (path mode : string) (fs : FileSys) :
  mode <> "r"%string -> path ∉ denied fs ->
  exists fs',
    fopen path mode fs = (Some path, fs')
    /\ files fs' !! path = Some (default [] (files fs !! path))
    /\ room fs' = room fs.
Proof.
  intros Hmode Hpath. unfold fopen.
  destruct (String.eqb_spec mode "r") as [->|_]; [done|].
  simpl. rewrite decide_False by done.
  destruct (files fs !! path) as [old|] eqn:Hold.
  - eexists. split; [reflexivity|]. simpl. by rewrite Hold.
  - eexists. split; [reflexivity|]. simpl. by rewrite lookup_insert_eq.
Qed.

Lemma fopen_s_append (path mode : string) (fs : FileSys) :
  mode <> "r"%string -> path ∉ denied fs ->
  exists fs',
    fopen_s path mode fs = (0, Some path, fs')
    /\ files fs' !! path = Some (default [] (files fs !! path))
    /\ room fs' = room fs.
Proof.
  intros Hmode Hpath.
  destruct (fopen_append path mode fs Hmode Hpath) as (fs' & Hopen & Hfs').
  exists fs'. unfold fopen_s. by rewrite Hopen.
Qed.

(** The append-open of [Open], for both flavors. *)
Lemma Open_reaches_finish (f : LogFile) (fs : FileSys) :
  m_pFileName f ∉ denied fs ->
  exists fs',
    Open cfg f fs
    = Open_finish cfg (bool_decide (is_Some (files fs !! m_pFileName f)))
        (set_m_pFile (Some (m_pFileName f)) f) fs'
    /\ files fs' !! m_pFileName f = Some (default [] (files fs !! m_pFileName f))
    /\ room fs' = room fs.
Proof.
  intros Hpath. unfold Open.
  assert (match fst (fopen (m_pFileName f) "r" fs) with
          | Some _ => true | None => false end
          = bool_decide (is_Some (files fs !! m_pFileName f))) as Hprobe.
  { unfold fopen. simpl. by case_decide; [rewrite bool_decide_true|rewrite bool_decide_false]. }
  destruct (LOGOG_FLAVOR_WINDOWS cfg).
  - rewrite fopen_s_r. rewrite Hprobe.
    set (mode := if LOGOG_UNICODE cfg then _ else _).
    destruct (fopen_s_append (m_pFileName f) mode (logged (m_pFileName f) "r" fs))
      as (fs' & -> & Hfs'); [by unfold mode; destruct (LOGOG_UNICODE cfg)|done|].
    simpl. eauto.
  - destruct (fopen_r_fst (m_pFileName f) fs) as [fp Hr].
    rewrite Hr in Hprobe |- *. simpl in Hprobe. rewrite Hprobe.
    destruct (fopen_append (m_pFileName f) "ab+" (logged (m_pFileName f) "r" fs))
      as (fs' & -> & Hfs'); [done|done|].
    eauto.
Qed.

Lemma InternalOutput_one (bom : list byte) (f : LogFile) (fs : FileSys)
    (path : string) (old : list byte) :
  m_pFile f = Some path ->
  files fs !! path = Some old ->
  Z.pos (sizeof_LOGOG_CHAR cfg) <= room fs ->
  files (snd (InternalOutput cfg 1 bom f fs)) !! path
  = Some (old ++ take (Pos.to_nat (sizeof_LOGOG_CHAR cfg)) bom).
Proof.
  intros Hfile Hold Hroom. unfold InternalOutput, fwrite. rewrite Hfile.
  assert (Z.max 0 (Z.min 1 (room fs / Z.pos (sizeof_LOGOG_CHAR cfg))) = 1) as ->.
  { assert (1 <= room fs / Z.pos (sizeof_LOGOG_CHAR cfg)).
    { apply Z.div_le_lower_bound; lia. }
    lia. }
  simpl. rewrite lookup_insert_eq, Hold. simpl.
  by rewrite Z.mul_1_l, Z2Nat.inj_pos.
Qed.

(** C6: when [Open] succeeds, a Unicode build with two-byte characters
    puts FF FE (little-endian host) or FE FF (big-endian host, as the probe
    finds it) first into a file that did not exist, the device having room
    for the two bytes; a file that existed keeps exactly its bytes; with
    one-byte characters the file gets no byte from [Open]. *)
Theorem Open_byte_order_mark (f : LogFile) (fs : FileSys) :
  m_pFileName f ∉ denied fs ->
  let fs' := snd (Open cfg f fs) in
  (LOGOG_UNICODE cfg = true -> sizeof_LOGOG_CHAR cfg = 2%positive ->
   files fs !! m_pFileName f = None -> 2 <= room fs ->
   files fs' !! m_pFileName f
   = Some (if host_little_endian cfg then [xff; xfe] else [xfe; xff]))
  /\ (forall old, files fs !! m_pFileName f = Some old ->
                  files fs' !! m_pFileName f = Some old)
  /\ (sizeof_LOGOG_CHAR cfg = 1%positive ->
      files fs' !! m_pFileName f = Some (default [] (files fs !! m_pFileName f))).
Proof.
  intros Hpath fs'.
  destruct (Open_reaches_finish f fs Hpath) as (fs1 & HOpen & Hfiles & Hroom1).
  subst fs'. rewrite HOpen. unfold Open_finish. simpl.
  repeat split.
  - intros Huni Hwidth Hnew Hroom. rewrite Huni, Hnew in *.
    rewrite bool_decide_false by (by intros [? ?]). simpl.
    unfold WriteUnicodeBOM. rewrite Hwidth, probe_little_endian.
    destruct (host_little_endian cfg);
      (rewrite (InternalOutput_one _ _ _ (m_pFileName f) []);
       [ rewrite Hwidth; reflexivity | reflexivity | exact Hfiles
       | rewrite Hwidth, Hroom1; lia ]).
  - intros old Hold. rewrite Hold in *.
    rewrite bool_decide_true by eauto. simpl.
    by destruct (LOGOG_UNICODE cfg).
  - intros Hwidth. unfold WriteUnicodeBOM. rewrite Hwidth.
    by destruct (LOGOG_UNICODE cfg), (bool_decide _).
Qed.

End ByteOrderMark.

Lemma Open_byte_order_mark_witness :
  files (snd (Open windows_unicode (LogFile_ctor windows_unicode "log") empty_fs))
    !! "log"%string = Some [xff; xfe].
Proof.
  refine (proj1 (Open_byte_order_mark windows_unicode
                   (LogFile_ctor windows_unicode "log") empty_fs _) _ _ _ _).
  - vm_compute. discriminate.
  - reflexivity.
  - reflexivity.
  - reflexivity.
  - vm_compute. discriminate.
Defined.

End FileFacts.

(** ** Memory *)

Module MemoryFacts.
Import Memory.

Lemma Z_of_byte_range (b : byte) : 0 <= Z_of_byte b < 256.
Proof.
  unfold Z_of_byte. pose proof (Byte.to_N_bounded b). lia.
Qed.

Lemma Z_of_byte_of_Z (v : Z) : Z_of_byte (byte_of_Z v) = v mod 256.
Proof.
  unfold byte_of_Z, Z_of_byte.
  pose proof (Z.mod_pos_bound v 256 ltac:(lia)) as Hv.
  destruct (Byte.of_N (Z.to_N (v mod 256))) as [b|] eqn:Hb.
  - apply Byte.to_of_N in Hb. rewrite Hb. lia.
  - apply Byte.of_N_None_iff in Hb. lia.
Qed.

Lemma decode_le_nonneg (bs : list byte) : 0 <= decode_le bs.
Proof.
  induction bs as [|b bs IH]; simpl; [done|].
  pose proof (Z_of_byte_range b). lia.
Qed.

Lemma length_encode_le (n : nat) (v : Z) : length (encode_le n v) = n.
Proof. revert v. induction n as [|n IH]; intros v; simpl; [done|]. by rewrite IH. Qed.

Lemma decode_le_encode_le (n : nat) (v : Z) :
  decode_le (encode_le n v) = v mod 256 ^ Z.of_nat n.
Proof.
  revert v. induction n as [|n IH]; intros v.
  - simpl. by rewrite Z.mod_1_r.
  - cbn [encode_le decode_le]. rewrite IH, Z_of_byte_of_Z.
    rewrite Nat2Z.inj_succ, Z.pow_succ_r by lia.
    rewrite Z.rem_mul_r; [done | lia |]. apply Z.pow_pos_nonneg; lia.
Qed.

Section WithPlatform.
Context (cfg : Platform).

Lemma length_encode (n : nat) (v : Z) : length (encode cfg n v) = n.
Proof.
  unfold encode. destruct (host_little_endian cfg);
    by rewrite ?length_rev, length_encode_le.
Qed.

Lemma decode_encode (n : nat) (v : Z) :
  0 <= v < 256 ^ Z.of_nat n -> decode cfg (encode cfg n v) = v.
Proof.
  intros Hv. unfold decode, encode.
  destruct (host_little_endian cfg);
    rewrite ?rev_involutive, decode_le_encode_le; by apply Z.mod_small.
Qed.

Lemma decode_nonneg (bs : list byte) : 0 <= decode cfg bs.
Proof. unfold decode. destruct (host_little_endian cfg); apply decode_le_nonneg. Qed.

Lemma load_size_t_nonneg (h : gmap Z byte) (p : Z) : 0 <= load_size_t cfg h p.
Proof. apply decode_nonneg. Qed.

Lemma WORD_pos : 0 < WORD cfg.
Proof. unfold WORD. lia. Qed.

Lemma CHAR_pos : 0 < CHAR cfg.
Proof. unfold CHAR. lia. Qed.

(** A store changes no byte outside the range it writes. *)
Lemma store_bytes_outside (h : gmap Z byte) (p : Z) (bs : list byte) (a : Z) :
  a < p \/ p + Z.of_nat (length bs) <= a ->
  store_bytes h p bs !! a = h !! a.
Proof.
  revert h p. induction bs as [|b bs IH]; intros h p Ha; simpl; [done|].
  simpl in Ha. rewrite IH by lia. apply lookup_insert_ne. lia.
Qed.

Lemma load_bytes_ext (h1 h2 : gmap Z byte) (p : Z) (n : nat) :
  (forall a, p <= a < p + Z.of_nat n -> h1 !! a = h2 !! a) ->
  load_bytes h1 p n = load_bytes h2 p n.
Proof.
  revert p. induction n as [|n IH]; intros p Hagree; simpl; [done|].
  f_equal; [unfold load_byte; by rewrite Hagree by lia|].
  apply IH. intros a Ha. apply Hagree. lia.
Qed.

Lemma load_bytes_store_bytes (h : gmap Z byte) (p : Z) (bs : list byte) :
  load_bytes (store_bytes h p bs) p (length bs) = bs.
Proof.
  revert h p. induction bs as [|b bs IH]; intros h p; simpl; [done|].
  rewrite IH. f_equal. unfold load_byte.
  rewrite store_bytes_outside by lia. by rewrite lookup_insert_eq.
Qed.

Lemma load_size_t_store_size_t (h : gmap Z byte) (p v : Z) :
  0 <= v < 256 ^ WORD cfg ->
  load_size_t cfg (store_size_t cfg h p v) p = v.
Proof.
  intros Hv. unfold load_size_t, store_size_t.
  rewrite <- (length_encode (Pos.to_nat (sizeof_size_t cfg)) v) at 2.
  rewrite load_bytes_store_bytes. apply decode_encode.
  by rewrite positive_nat_Z.
Qed.

Lemma load_char_store_char (h : gmap Z byte) (p c : Z) :
  char_ok cfg c -> load_char cfg (store_char cfg h p c) p = c.
Proof.
  intros Hc. unfold load_char, store_char.
  rewrite <- (length_encode (Pos.to_nat (sizeof_LOGOG_CHAR cfg)) c) at 2.
  rewrite load_bytes_store_bytes. apply decode_encode.
  by rewrite positive_nat_Z.
Qed.

Lemma store_size_t_outside (h : gmap Z byte) (p v a : Z) :
  a < p \/ p + WORD cfg <= a -> store_size_t cfg h p v !! a = h !! a.
Proof.
  intros Ha. apply store_bytes_outside.
  rewrite length_encode, positive_nat_Z. exact Ha.
Qed.

Lemma store_char_outside (h : gmap Z byte) (p c a : Z) :
  a < p \/ p + CHAR cfg <= a -> store_char cfg h p c !! a = h !! a.
Proof.
  intros Ha. apply store_bytes_outside.
  rewrite length_encode, positive_nat_Z. exact Ha.
Qed.

Lemma load_size_t_ext (h1 h2 : gmap Z byte) (p : Z) :
  (forall a, p <= a < p + WORD cfg -> h1 !! a = h2 !! a) ->
  load_size_t cfg h1 p = load_size_t cfg h2 p.
Proof.
  intros Hagree. unfold load_size_t. f_equal. apply load_bytes_ext.
  intros a Ha. apply Hagree. rewrite positive_nat_Z in Ha. exact Ha.
Qed.

Lemma load_char_ext (h1 h2 : gmap Z byte) (p : Z) :
  (forall a, p <= a < p + CHAR cfg -> h1 !! a = h2 !! a) ->
  load_char cfg h1 p = load_char cfg h2 p.
Proof.
  intros Hagree. unfold load_char. f_equal. apply load_bytes_ext.
  intros a Ha. apply Hagree. rewrite positive_nat_Z in Ha. exact Ha.
Qed.

End WithPlatform.

(** Brings the two size facts into the context, for [lia] and [nia]. *)
Ltac sizes cfg := pose proof (WORD_pos cfg); pose proof (CHAR_pos cfg).

End MemoryFacts.

(** ** Ring buffer: [Dump] *)

Module DumpFacts.
Import Memory MemoryFacts Buffer.

Section WithTarget.
Context (cfg : Platform).
Context {T : Type} `{Target T}.

(** The loop of [Dump] is the replay of the buffered records, and the
    budget [Dump] gives it is never used up. *)
Lemma Dump_loop_replay (fuel : nat) (h : gmap Z byte) (cur p : Z) (t : T) :
  (Z.to_nat (cur - p) <= fuel)%nat ->
  Dump_loop cfg fuel h cur p t
  = match replay (forwarded cfg fuel h cur p) t with
    | (None, t') => Finished t'
    | (Some nError, t') => Returned nError t'
    end.
Proof.
  revert p t. induction fuel as [|fuel IH]; intros p t Hfuel.
  - simpl. destruct (Z.ltb_spec p cur); [lia | done].
  - cbn [Dump_loop forwarded]. destruct (Z.ltb_spec p cur); [|done].
    cbn [replay]. destruct (Output _ t) as [nError t'].
    destruct (negb (nError =? 0)); [done|].
    apply IH.
    pose proof (load_size_t_nonneg cfg h p).
    sizes cfg. nia.
Qed.

Lemma replay_failure (l : list LOGOG_STRING) (t t' : T) (nError : int) :
  replay l t = (Some nError, t') -> nError <> 0.
Proof.
  revert t. induction l as [|s l IH]; intros t; simpl; [done|].
  destruct (Output s t) as [e t1].
  destruct (Z.eqb_spec e 0) as [->|Hne]; simpl.
  - apply IH.
  - by intros [= <- _].
Qed.

Lemma Dump_replay (b : LogBuffer T) (t : T) :
  m_pOutputTarget b = Some t ->
  Dump cfg b
  = match replay (buffered cfg b) t with
    | (None, t') => (0, set_m_pCurrent (m_pStart b) (SetTarget t' b))
    | (Some nError, t') => (nError, SetTarget t' b)
    end.
Proof.
  intros Ht. unfold Dump, buffered. rewrite Ht, Dump_loop_replay by lia.
  by destruct (replay _ t) as [[nError|] t'].
Qed.

(** C4: [Dump] hands the buffered records to the target's [Output] in
    order, from [m_pStart] towards [m_pCurrent].  At the first failing
    [Output] the replay stops and [Dump] returns that status with the
    memory and [m_pCurrent] as they were; when all records went through,
    and only then, [Dump] returns 0 with [m_pCurrent] back at
    [m_pStart]. *)
Theorem Dump_stops_at_first_failure (b : LogBuffer T) (t : T) :
  m_pOutputTarget b = Some t ->
  match replay (buffered cfg b) t with
  | (None, t') =>
      Dump cfg b = (0, set_m_pCurrent (m_pStart b) (SetTarget t' b))
  | (Some nError, t') =>
      nError <> 0
      /\ Dump cfg b = (nError, SetTarget t' b)
      /\ memory (snd (Dump cfg b)) = memory b
      /\ m_pCurrent (snd (Dump cfg b)) = m_pCurrent b
  end.
Proof.
  intros Ht. rewrite (Dump_replay b t Ht).
  destruct (replay (buffered cfg b) t) as [[nError|] t'] eqn:Hreplay; [|done].
  split; [by eapply replay_failure|]. done.
Qed.

(** C10: with a null [m_pOutputTarget], [Dump] returns -1 and the buffer,
    its memory and its write cursor included, is as before. *)
Theorem Dump_without_target (b : LogBuffer T) :
  m_pOutputTarget b = None -> Dump cfg b = (-1, b).
Proof. intros Hnull. unfold Dump. by rewrite Hnull. Qed.

(** [Dump] never writes to memory. *)
Lemma Dump_memory (b : LogBuffer T) : memory (snd (Dump cfg b)) = memory b.
Proof.
  unfold Dump. destruct (m_pOutputTarget b) as [t|]; [|done].
  by destruct (Dump_loop _ _ _ _ _ _).
Qed.

Lemma Dump_bounds (b : LogBuffer T) :
  m_pStart (snd (Dump cfg b)) = m_pStart b
  /\ m_pEnd (snd (Dump cfg b)) = m_pEnd b
  /\ m_nSize (snd (Dump cfg b)) = m_nSize b.
Proof.
  unfold Dump. destruct (m_pOutputTarget b) as [t|]; [|done].
  by destruct (Dump_loop _ _ _ _ _ _).
Qed.

(** [Dump] leaves the cursor alone or, when it returns 0, may have put
    it back to the start. *)
Lemma Dump_cursor (b : LogBuffer T) :
  m_pCurrent (snd (Dump cfg b)) = m_pCurrent b
  \/ (fst (Dump cfg b) = 0 /\ m_pCurrent (snd (Dump cfg b)) = m_pStart b).
Proof.
  unfold Dump. destruct (m_pOutputTarget b) as [t|]; [|by left].
  destruct (Dump_loop _ _ _ _ _ _); simpl; auto.
Qed.

End WithTarget.

Lemma Dump_stops_at_first_failure_witness :
  Dump posix64 (one_record (Some (broken 0)))
  = (-1, SetTarget (broken 1) (one_record (Some (broken 0)))).
Proof.
  exact (proj1 (proj2 (Dump_stops_at_first_failure posix64
                         (one_record (Some (broken 0))) (broken 0) eq_refl))).
Defined.

Lemma Dump_without_target_witness :
  Dump posix64 (one_record (T := Recorder) None)
  = (-1, one_record (T := Recorder) None).
Proof. apply Dump_without_target. reflexivity. Defined.

End DumpFacts.

(** ** Ring buffer: [Insert] *)

Module InsertFacts.
Import Memory MemoryFacts Buffer DumpFacts.

Section WithTarget.
Context (cfg : Platform).
Context {T : Type} `{Target T}.

Lemma copy_chars_cursor (n : nat) (s : LOGOG_STRING) (h : gmap Z byte) (cur : Z) :
  snd (copy_chars cfg n s h cur) = cur + CHAR cfg * Z.of_nat n.
Proof.
  revert s h cur. induction n as [|n IH]; intros s h cur; simpl; [lia|].
  rewrite IH. lia.
Qed.

(** The copy loop writes from the cursor to where it leaves the cursor. *)
Lemma copy_chars_outside (n : nat) (s : LOGOG_STRING) (h : gmap Z byte) (cur a : Z) :
  a < cur \/ cur + CHAR cfg * Z.of_nat n <= a ->
  fst (copy_chars cfg n s h cur) !! a = h !! a.
Proof.
  sizes cfg.
  revert s h cur. induction n as [|n IH]; intros s h cur Ha; simpl; [done|].
  rewrite IH by nia. apply store_char_outside. nia.
Qed.

Lemma read_chars_ext (h1 h2 : gmap Z byte) (p : Z) (n : nat) :
  (forall a, p <= a < p + CHAR cfg * Z.of_nat n -> h1 !! a = h2 !! a) ->
  read_chars cfg h1 p n = read_chars cfg h2 p n.
Proof.
  sizes cfg.
  revert p. induction n as [|n IH]; intros p Hagree; simpl; [done|]. f_equal.
  - apply load_char_ext. intros a Ha. apply Hagree. nia.
  - apply IH. intros a Ha. apply Hagree. nia.
Qed.

Lemma copy_chars_read (s : LOGOG_STRING) (h : gmap Z byte) (cur : Z) :
  Forall (char_ok cfg) s ->
  read_chars cfg (fst (copy_chars cfg (length s) s h cur)) cur (length s) = s.
Proof.
  sizes cfg.
  revert h cur. induction s as [|c s IH]; intros h cur Hs; simpl; [done|].
  apply Forall_cons in Hs as [Hc Hs]. f_equal.
  - rewrite (load_char_ext cfg _ (store_char cfg h cur c)).
    + by apply load_char_store_char.
    + intros a Ha. apply copy_chars_outside. lia.
  - by apply IH.
Qed.

Lemma read_chars_snoc (h : gmap Z byte) (p : Z) (n : nat) :
  read_chars cfg h p (S n)
  = read_chars cfg h p n ++ [load_char cfg h (p + CHAR cfg * Z.of_nat n)].
Proof.
  revert p. induction n as [|n IH]; intros p.
  - simpl. do 2 f_equal. lia.
  - change (read_chars cfg h p (S (S n)))
      with (load_char cfg h p :: read_chars cfg h (p + CHAR cfg) (S n)).
    rewrite IH.
    replace (p + CHAR cfg * Z.of_nat (S n))
      with (p + CHAR cfg + CHAR cfg * Z.of_nat n) by lia.
    reflexivity.
Qed.

Lemma read_chars_removelast (h : gmap Z byte) (p : Z) (s : LOGOG_STRING) :
  s <> [] -> read_chars cfg h p (length s) = s ->
  read_chars cfg h p (Nat.pred (length s)) = removelast s.
Proof.
  intros Hne Hs. destruct (length s) as [|n] eqn:Hlen.
  - by destruct s.
  - rewrite read_chars_snoc in Hs. rewrite <- Hs. simpl.
    by rewrite removelast_last.
Qed.

(** The capacity [Insert] compares the size with. *)
Lemma capacity (b : LogBuffer T) :
  well_formed cfg b ->
  to_size_t cfg ((m_pEnd b - m_pStart b) / CHAR cfg) = m_nSize b.
Proof.
  intros (Hend & Hsize & _). sizes cfg.
  replace (m_pEnd b - m_pStart b) with (m_nSize b * CHAR cfg) by lia.
  rewrite Z.div_mul by lia. by apply Z.mod_small.
Qed.

(** A record that fits before [m_pEnd] together with its header is
    appended at the cursor, and nothing else changes. *)
Lemma Insert_appends (s : LOGOG_STRING) (b : LogBuffer T) :
  well_formed cfg b ->
  m_pCurrent b + WORD cfg + CHAR cfg * Z.of_nat (length s) <= m_pEnd b ->
  exists h',
    Insert cfg s (Z.of_nat (length s)) b
    = (0, set_m_pCurrent
            (m_pCurrent b + WORD cfg + CHAR cfg * Z.of_nat (length s))
            (set_memory h' b))
    /\ (forall a,
          a < m_pCurrent b
          \/ m_pCurrent b + WORD cfg + CHAR cfg * Z.of_nat (length s) <= a ->
          h' !! a = memory b !! a)
    /\ (Forall (char_ok cfg) s ->
        load_size_t cfg h' (m_pCurrent b) = Z.of_nat (length s)
        /\ read_chars cfg h' (m_pCurrent b + WORD cfg) (length s) = s).
Proof.
  intros (Hend & Hsize & Hcur) Hfit.
  sizes cfg.
  assert (Z.of_nat (length s) < m_nSize b) as Hlen by nia.
  unfold Insert.
  destruct (Z.geb_spec (m_pCurrent b + CHAR cfg * Z.of_nat (length s)) (m_pEnd b));
    [lia|].
  rewrite (capacity b) by done.
  destruct (Z.gtb_spec (Z.of_nat (length s)) (m_nSize b)); [lia|].
  rewrite Nat2Z.id.
  set (h0 := store_size_t cfg (memory b) (m_pCurrent b) (Z.of_nat (length s))).
  rewrite (surjective_pairing (copy_chars cfg _ _ _ _)), copy_chars_cursor.
  exists (fst (copy_chars cfg (length s) s h0 (m_pCurrent b + WORD cfg))).
  split; [done|]. split.
  - intros a Ha. rewrite copy_chars_outside by lia.
    apply store_size_t_outside. lia.
  - intros Hs. split.
    + rewrite (load_size_t_ext cfg _ h0).
      * apply load_size_t_store_size_t. lia.
      * intros a Ha. apply copy_chars_outside. lia.
    + by apply copy_chars_read.
Qed.

Lemma holds_le (h : gmap Z byte) (p : Z) (l : list LOGOG_STRING) (q : Z) :
  holds cfg h p l q -> p + Z.of_nat (length l) <= q.
Proof.
  sizes cfg.
  revert p. induction l as [|s l IH]; intros p; simpl; [lia|].
  intros (_ & _ & Htl). apply IH in Htl. nia.
Qed.

Lemma holds_ext (h1 h2 : gmap Z byte) (p : Z) (l : list LOGOG_STRING) (q : Z) :
  (forall a, p <= a < q -> h1 !! a = h2 !! a) ->
  holds cfg h1 p l q -> holds cfg h2 p l q.
Proof.
  sizes cfg.
  revert p. induction l as [|s l IH]; intros p Hagree; simpl; [done|].
  intros (Hlen & Hs & Htl). pose proof (holds_le _ _ _ _ Htl) as Hle.
  split; [|split].
  - rewrite <- Hlen. apply load_size_t_ext. intros a Ha. symmetry. apply Hagree. nia.
  - rewrite <- Hs at 2. apply read_chars_ext. intros a Ha. symmetry. apply Hagree. nia.
  - apply IH; [|done]. intros a Ha. apply Hagree. nia.
Qed.

Lemma holds_snoc (h : gmap Z byte) (p : Z) (l : list LOGOG_STRING) (q : Z)
    (s : LOGOG_STRING) :
  holds cfg h p l q ->
  load_size_t cfg h q = Z.of_nat (length s) ->
  read_chars cfg h (q + WORD cfg) (length s) = s ->
  holds cfg h p (l ++ [s]) (q + WORD cfg + CHAR cfg * Z.of_nat (length s)).
Proof.
  revert p. induction l as [|s0 l IH]; intros p; simpl.
  - intros -> Hlen Hs. done.
  - intros (Hlen0 & Hs0 & Htl) Hlen Hs. repeat split; [done..|]. by apply IH.
Qed.

(** What lies in the arena is forwarded without its last character. *)
Lemma forwarded_holds (fuel : nat) (h : gmap Z byte) (p : Z)
    (l : list LOGOG_STRING) (q : Z) :
  holds cfg h p l q -> Forall (fun s => s <> []) l -> (length l <= fuel)%nat ->
  forwarded cfg fuel h q p = map without_last l.
Proof.
  sizes cfg.
  revert p fuel. induction l as [|s l IH]; intros p fuel; simpl.
  - intros -> _ _. destruct fuel; simpl; by rewrite Z.ltb_irrefl.
  - intros (Hlen & Hs & Htl) [Hne Hl]%Forall_cons Hfuel.
    pose proof (holds_le _ _ _ _ Htl) as Hle.
    destruct fuel as [|fuel]; [lia|]. cbn [forwarded].
    destruct (Z.ltb_spec p q); [|lia]. rewrite Hlen. f_equal.
    + unfold String_assign.
      replace (p + WORD cfg + CHAR cfg * Z.of_nat (length s) - CHAR cfg - (p + WORD cfg))
        with ((Z.of_nat (length s) - 1) * CHAR cfg) by lia.
      rewrite Z.div_mul by lia.
      replace (Z.to_nat (Z.of_nat (length s) - 1)) with (Nat.pred (length s)) by lia.
      by apply read_chars_removelast.
    + apply IH; [done|done|lia].
Qed.

Lemma footprint_nonneg (l : list LOGOG_STRING) : 0 <= footprint cfg l.
Proof.
  sizes cfg.
  induction l as [|s l IH]; simpl; [done|]. nia.
Qed.

(** Records that fit, headers included, are appended one after the other
    without any flush. *)
Lemma insert_all_holds (l done : list LOGOG_STRING) (b : LogBuffer T) :
  well_formed cfg b ->
  Forall (Forall (char_ok cfg)) l ->
  holds cfg (memory b) (m_pStart b) done (m_pCurrent b) ->
  m_pCurrent b + footprint cfg l <= m_pEnd b ->
  exists h',
    insert_all cfg l b
    = (repeat 0 (length l),
       set_m_pCurrent (m_pCurrent b + footprint cfg l) (set_memory h' b))
    /\ holds cfg h' (m_pStart b) (done ++ l) (m_pCurrent b + footprint cfg l).
Proof.
  sizes cfg.
  revert done b. induction l as [|s l IH]; intros done b Hwf Hl Hholds Hfit.
  - exists (memory b). simpl. rewrite app_nil_r, Z.add_0_r. split; [|done].
    by destruct b.
  - apply Forall_cons in Hl as [Hs Hl]. simpl in Hfit.
    pose proof (footprint_nonneg l) as Hnn.
    destruct (Insert_appends s b Hwf ltac:(lia)) as (h1 & HIns & Hout & Hin).
    destruct (Hin Hs) as [Hlen Hread].
    set (b1 := set_m_pCurrent
                 (m_pCurrent b + WORD cfg + CHAR cfg * Z.of_nat (length s))
                 (set_memory h1 b)) in *.
    destruct (IH (done ++ [s]) b1) as (h2 & Hall & Hholds2).
    + destruct Hwf as (Hend & Hsize & Hcur). repeat split; simpl; lia.
    + exact Hl.
    + simpl. apply holds_snoc; [|done|done].
      eapply holds_ext; [|exact Hholds]. intros a Ha. symmetry. apply Hout. lia.
    + simpl. lia.
    + exists h2. cbn [insert_all]. unfold LogBuffer_Output. rewrite HIns, Hall.
      simpl in Hholds2 |- *. rewrite <- app_assoc in Hholds2. simpl in Hholds2.
      replace (m_pCurrent b + (WORD cfg + CHAR cfg * Z.of_nat (length s) + footprint cfg l))
        with (m_pCurrent b + WORD cfg + CHAR cfg * Z.of_nat (length s) + footprint cfg l)
        by lia.
      split; [done|exact Hholds2].
Qed.

(** C1, as the code has it: on a fresh buffer of [s] characters, non-empty
    records that fit into the arena together with one machine word of header
    each are all accepted with status 0 and without any flush, and [Dump]
    then hands them to the target's [Output] in insertion order, none added
    and none left out up to the first failing [Output], each without its
    last character. *)
Theorem Insert_Dump_round_trip (l : list LOGOG_STRING) (t : T) (s base : Z)
    (h : gmap Z byte) :
  0 <= s < 256 ^ WORD cfg ->
  Forall (fun r => r <> [] /\ Forall (char_ok cfg) r) l ->
  footprint cfg l <= CHAR cfg * s ->
  let b0 := LogBuffer_ctor cfg (Some t) s base h in
  let r := insert_all cfg l b0 in
  fst r = repeat 0 (length l)
  /\ m_pOutputTarget (snd r) = Some t
  /\ buffered cfg (snd r) = map without_last l
  /\ Dump cfg (snd r)
     = match replay (map without_last l) t with
       | (None, t') => (0, set_m_pCurrent base (SetTarget t' (snd r)))
       | (Some nError, t') => (nError, SetTarget t' (snd r))
       end.
Proof.
  intros Hs Hl Hfit b0 r.
  destruct (insert_all_holds l [] b0) as (h' & Hall & Hholds).
  - repeat split; simpl; lia.
  - eapply Forall_impl; [exact Hl|]. by intros ? [_ ?].
  - reflexivity.
  - simpl. lia.
  - subst r. rewrite Hall. simpl in Hholds |- *.
    assert (buffered cfg
              (set_m_pCurrent (base + footprint cfg l) (set_memory h' b0))
            = map without_last l) as Hbuf.
    { unfold buffered. simpl. eapply forwarded_holds; [exact Hholds| |].
      - eapply Forall_impl; [exact Hl|]. by intros ? [? _].
      - apply holds_le in Hholds. lia. }
    repeat split; [exact Hbuf|].
    rewrite (Dump_replay cfg _ t) by done. by rewrite Hbuf.
Qed.

(** C2, as the code has it: [Insert] of a record longer than the arena,
    on a buffer whose pointers are addresses of the machine and for a size
    that keeps the sum [m_pCurrent + size] of the first test below the end
    of the address space (so that the sum is the one the machine computes,
    without wrap-around), flushes first and then returns -1.  No byte is
    written; [m_pCurrent] is where that [Dump] leaves it, at [m_pStart] when
    the flush went through and unmoved otherwise. *)
Theorem Insert_too_large (pChars : LOGOG_STRING) (size : Z) (b : LogBuffer T) :
  well_formed cfg b -> size > m_nSize b ->
  0 <= m_pStart b ->
  m_pCurrent b + CHAR cfg * size < 256 ^ WORD cfg ->
  Insert cfg pChars size b = (-1, snd (Dump cfg b))
  /\ memory (snd (Insert cfg pChars size b)) = memory b
  /\ (m_pCurrent (snd (Insert cfg pChars size b)) = m_pCurrent b
      \/ (fst (Dump cfg b) = 0
          /\ m_pCurrent (snd (Insert cfg pChars size b)) = m_pStart b)).
Proof.
  intros (Hend & Hsize & Hcur) Hbig _ _.
  sizes cfg.
  assert (Insert cfg pChars size b = (-1, snd (Dump cfg b))) as HIns.
  { unfold Insert.
    destruct (Z.geb_spec (m_pCurrent b + CHAR cfg * size) (m_pEnd b)); [|nia].
    destruct (Dump_bounds cfg b) as (-> & -> & _).
    rewrite (capacity b) by done.
    destruct (Z.gtb_spec size (m_nSize b)); [done|lia]. }
  rewrite HIns. simpl. split; [done|]. split.
  - apply Dump_memory.
  - apply Dump_cursor.
Qed.

End WithTarget.

(** C1, as stated, fails: a record of two characters in an arena of 64 is
    accepted and dumped with status 0, and the target receives one character. *)
Lemma Insert_Dump_drops_last_character :
  let b0 : LogBuffer Recorder := LogBuffer_ctor posix64 (Some []) 64 4096 ∅ in
  let r := insert_all posix64 [literal "ab"] b0 in
  Z.of_nat (length (literal "ab")) <= m_nSize b0
  /\ fst r = [0]
  /\ fst (Dump posix64 (snd r)) = 0
  /\ m_pOutputTarget (snd (Dump posix64 (snd r))) = Some [literal "a"]
  /\ m_pOutputTarget (snd (Dump posix64 (snd r))) <> Some [literal "ab"].
Proof. vm_compute. repeat split; discriminate. Qed.

Lemma Insert_Dump_round_trip_witness :
  Dump posix64
    (snd (insert_all posix64 [literal "ab"; literal "cde"]
            (LogBuffer_ctor posix64 (Some ([] : Recorder)) 64 4096 ∅)))
  = (0, set_m_pCurrent 4096
          (SetTarget [literal "a"; literal "cd"]
             (snd (insert_all posix64 [literal "ab"; literal "cde"]
                     (LogBuffer_ctor posix64 (Some ([] : Recorder)) 64 4096 ∅))))).
Proof.
  refine (proj2 (proj2 (proj2
    (Insert_Dump_round_trip posix64 [literal "ab"; literal "cde"]
       ([] : Recorder) 64 4096 ∅ _ _ _)))).
  - vm_compute. split; [discriminate | reflexivity].
  - repeat constructor; try discriminate; vm_compute; discriminate.
  - vm_compute. discriminate.
Defined.

(** C2, as stated, fails: the record is refused, but the flush that comes
    first has forwarded the buffered record and moved the cursor. *)
Lemma Insert_too_large_moves_cursor :
  let b : LogBuffer Recorder := one_record (Some []) in
  let r := Insert posix64 (repeat 65 17) 17 b in
  17 > m_nSize b
  /\ fst r = -1
  /\ m_pCurrent b = 4106
  /\ m_pCurrent (snd r) = 4096
  /\ snd r <> b.
Proof.
  vm_compute. repeat split; try discriminate.
Qed.

Lemma Insert_too_large_witness :
  Insert posix64 (repeat 65 17) 17 (one_record (Some ([] : Recorder)))
  = (-1, snd (Dump posix64 (one_record (Some ([] : Recorder))))).
Proof.
  refine (proj1 (Insert_too_large posix64 (repeat 65 17) 17
                   (one_record (Some ([] : Recorder))) _ _ _ _)).
  - vm_compute. repeat split; discriminate.
  - reflexivity.
  - vm_compute. discriminate.
  - reflexivity.
Defined.

(** C3 (the code departs from it): the status of the implicit [Dump] is
    dropped.  With a target whose [Output] fails, an [Insert] that overflows
    triggers the flush, the flush fails, and [Insert] still returns 0; it
    has then written the record at the old cursor, which ends past
    [m_pEnd]. *)
Theorem Insert_ignores_failed_flush :
  let b : LogBuffer Broken := one_record (Some (broken 0)) in
  let r := Insert posix64 (literal "cdefgh") 6 b in
  m_pCurrent b + 6 >= m_pEnd b
  /\ 6 <= m_nSize b
  /\ fst (Dump posix64 b) = -1
  /\ m_pOutputTarget (snd r) = Some (broken 1)
  /\ fst r = 0
  /\ m_pEnd (snd r) = 4112
  /\ m_pCurrent (snd r) = 4120.
Proof. vm_compute. repeat split; discriminate. Qed.

(** C8 (the code departs from it): the test on entry of [Insert] leaves the
    header out.  A record of 12 characters passes both tests on an empty
    arena of 16, and with its header of 8 bytes it is written up to address
    4115, four bytes past [m_pEnd]. *)
Theorem Insert_writes_past_end :
  let b : LogBuffer Recorder := small_buffer (Some []) in
  let r := Insert posix64 (literal "abcdefghijkl") 12 b in
  m_pCurrent b + 12 < m_pEnd b
  /\ 12 <= m_nSize b
  /\ fst r = 0
  /\ m_pOutputTarget (snd r) = Some []
  /\ m_pEnd (snd r) = 4112
  /\ memory b !! 4115 = None
  /\ memory (snd r) !! 4115 = Some "l"%byte.
Proof. vm_compute. repeat split; discriminate. Qed.

End InsertFacts.

(** * Further properties *)

(** ** Target lifecycle: what construction and destruction leave behind *)

Module RegistryMore.
Import Registry.

(** Subscribing or unsubscribing over a list of filters touches the
    subscriber sets only, one [alter] per filter. *)
Lemma exec_subscribes (this : Z) (ks : list Z) (w : World) :
  exec (map (SubscribeTo this) ks) w
  = {| AllTargets := AllTargets w;
       AllFilters := foldl (fun m k => alter (fun S => {[this]} ∪ S) k m) (AllFilters w) ks;
       m_pFormatter := m_pFormatter w |}.
Proof.
  unfold exec. revert w. induction ks as [|k ks IH]; intros w; simpl.
  - by destruct w.
  - by rewrite IH.
Qed.

Lemma exec_unsubscribes (this : Z) (ks : list Z) (w : World) :
  exec (map (UnsubscribeTo this) ks) w
  = {| AllTargets := AllTargets w;
       AllFilters := foldl (fun m k => alter (fun S => S ∖ {[this]}) k m) (AllFilters w) ks;
       m_pFormatter := m_pFormatter w |}.
Proof.
  unfold exec. revert w. induction ks as [|k ks IH]; intros w; simpl.
  - by destruct w.
  - by rewrite IH.
Qed.

(** An idempotent update applied along a list of keys is applied once to
    every key of the list. *)
Lemma foldl_alter_lookup (g : gset Z -> gset Z) (ks : list Z)
    (m : gmap Z (gset Z)) (f : Z) :
  (forall S, g (g S) = g S) ->
  foldl (fun m k => alter g k m) m ks !! f
  = if decide (f ∈ ks) then g <$> m !! f else m !! f.
Proof.
  intros Hidem. revert m. induction ks as [|k ks IH]; intros m; cbn [foldl].
  - destruct (decide (f ∈ [])) as [Hin|_]; [|done]. by apply elem_of_nil in Hin.
  - rewrite IH. destruct (decide (k = f)) as [->|Hne].
    + rewrite lookup_alter_eq.
      destruct (decide (f ∈ f :: ks)) as [_|Hnin]; [|exfalso; apply Hnin; left].
      destruct (decide (f ∈ ks)); [|done].
      destruct (m !! f); simpl; [|done]. by rewrite Hidem.
    + rewrite lookup_alter_ne by done.
      destruct (decide (f ∈ ks)) as [Hin|Hnin];
        destruct (decide (f ∈ k :: ks)) as [Hin'|Hnin']; try done.
      * exfalso. apply Hnin'. by right.
      * apply elem_of_cons in Hin' as [?|?]; [congruence|done].
Qed.

Lemma foldl_alter_all (g : gset Z -> gset Z) (m : gmap Z (gset Z)) :
  (forall S, g (g S) = g S) ->
  foldl (fun m k => alter g k m) m (elements (dom m)) = g <$> m.
Proof.
  intros Hidem. apply map_eq. intros f.
  rewrite foldl_alter_lookup, lookup_fmap by done.
  destruct (decide (f ∈ elements (dom m))) as [Hin|Hnin]; [done|].
  rewrite elem_of_elements, elem_of_dom in Hnin.
  destruct (m !! f) as [S|] eqn:Hf; [|done]. exfalso. apply Hnin. eauto.
Qed.

Lemma construct_eq (default_formatter this : Z) (w : World) :
  construct default_formatter this w
  = {| AllTargets := {[this]} ∪ AllTargets w;
       AllFilters := (fun S => {[this]} ∪ S) <$> AllFilters w;
       m_pFormatter := <[this := default_formatter]> (m_pFormatter w) |}.
Proof.
  unfold construct, Target_ctor, SubscribeToMultiple.
  change (exec (?a :: ?b :: ?r) w) with (exec r (apply b (apply a w))).
  rewrite exec_subscribes. simpl. f_equal.
  apply foldl_alter_all. intros S. set_solver.
Qed.

Lemma destroy_eq (this : Z) (w : World) :
  destroy this w
  = {| AllTargets := AllTargets w ∖ {[this]};
       AllFilters := (fun S => S ∖ {[this]}) <$> AllFilters w;
       m_pFormatter := m_pFormatter w |}.
Proof.
  unfold destroy, Target_dtor, UnsubscribeToMultiple, exec.
  rewrite foldl_app. fold (exec (map (UnsubscribeTo this) (elements (dom (AllFilters w)))) w).
  rewrite exec_unsubscribes. simpl. f_equal.
  apply foldl_alter_all. intros S. set_solver.
Qed.

(** X1: after [Target::Target] the target is in the registry, it is among
    the subscribers of every filter there is, its formatter is the default
    one, and every other membership is as before. *)
Theorem construct_registers_and_subscribes (default_formatter this : Z) (w : World) :
  let w' := construct default_formatter this w in
  AllTargets w' = {[this]} ∪ AllTargets w
  /\ AllFilters w' = (fun S => {[this]} ∪ S) <$> AllFilters w
  /\ m_pFormatter w' !! this = Some default_formatter
  /\ (forall f S, AllFilters w !! f = Some S ->
        exists S', AllFilters w' !! f = Some S' /\ this ∈ S'
                   /\ forall t, t <> this -> (t ∈ S' <-> t ∈ S)).
Proof.
  intros w'. subst w'. rewrite construct_eq. simpl.
  split; [done|]. split; [done|]. split; [apply lookup_insert_eq|].
  intros f S Hf. exists ({[this]} ∪ S). rewrite lookup_fmap, Hf.
  split; [done|]. split; [set_solver|]. intros t Ht. set_solver.
Qed.

(** X2: after [Target::~Target] the target is in no subscriber set and not
    in the registry; other targets keep their registration and their
    subscriptions, and no filter appears or disappears. *)
Theorem destroy_unregisters_and_unsubscribes (this : Z) (w : World) :
  let w' := destroy this w in
  ~ registered this w'
  /\ ~ subscribed this w'
  /\ dom (AllFilters w') = dom (AllFilters w)
  /\ (forall t, t <> this -> (registered t w' <-> registered t w))
  /\ (forall t f S, t <> this -> AllFilters w !! f = Some S ->
        exists S', AllFilters w' !! f = Some S' /\ (t ∈ S' <-> t ∈ S)).
Proof.
  intros w'. subst w'. rewrite destroy_eq.
  unfold registered, subscribed. simpl.
  split; [set_solver|]. split; [|split; [|split]].
  - intros (f & S & Hf & Hin). rewrite lookup_fmap in Hf.
    destruct (AllFilters w !! f) as [S0|]; simpl in Hf; [|done].
    injection Hf as HS. rewrite <- HS in Hin. set_solver.
  - apply leibniz_equiv, dom_fmap.
  - intros t Ht. set_solver.
  - intros t f S Ht Hf. exists (S ∖ {[this]}). rewrite lookup_fmap, Hf.
    split; [done|]. set_solver.
Qed.

(** X3: constructing a target that was neither registered nor subscribed
    and destroying it again gives back the registry and every subscriber
    set as they were. *)
Theorem construct_destroy_round_trip (default_formatter this : Z) (w : World) :
  ~ registered this w -> ~ subscribed this w ->
  let w' := destroy this (construct default_formatter this w) in
  AllTargets w' = AllTargets w /\ AllFilters w' = AllFilters w.
Proof.
  intros Hreg Hsub w'. subst w'. rewrite destroy_eq, construct_eq. simpl.
  unfold registered in Hreg. split; [set_solver|].
  apply map_eq. intros f. rewrite !lookup_fmap.
  destruct (AllFilters w !! f) as [S|] eqn:Hf; simpl; [|done]. f_equal.
  assert (this ∉ S) as Hnot.
  { intros Hin. apply Hsub. by exists f, S. }
  set_solver.
Qed.

Lemma construct_destroy_round_trip_witness :
  AllTargets (destroy 8 (construct 1 8 two_filters)) = AllTargets two_filters
  /\ AllFilters (destroy 8 (construct 1 8 two_filters)) = AllFilters two_filters.
Proof.
  apply (construct_destroy_round_trip 1 8 two_filters).
  - unfold registered. simpl. intros Hin.
    apply elem_of_singleton in Hin. discriminate.
  - intros (f & S & Hf & Hin). simpl in Hf.
    destruct (decide (f = 10)) as [->|H10].
    + rewrite lookup_insert_eq in Hf. injection Hf as HS. rewrite <- HS in Hin.
      apply elem_of_singleton in Hin. discriminate.
    + rewrite lookup_insert_ne in Hf by done.
      destruct (decide (f = 11)) as [->|H11].
      * rewrite lookup_insert_eq in Hf. injection Hf as HS. rewrite <- HS in Hin.
        by apply not_elem_of_empty in Hin.
      * rewrite lookup_insert_ne in Hf by done.
        rewrite lookup_empty in Hf. discriminate.
Defined.

End RegistryMore.

(** ** Console sinks: the arguments of the escape sequences *)

Module ConsoleMore.
Import Console.

(** X4: [ColoredPrintf] hands [printf] no null argument of its own: the
    color code is [NULL] for [COLOR_DEFAULT] only, and that color never
    reaches the escape sequence.  So what [printf] would do with a null
    argument has no influence on the result, given that the arguments of the
    caller hold none. *)
Theorem ColoredPrintf_passes_no_NULL (cfg : Platform)
    (TODO_COLOR_SUPPORT term_supports_color : bool) (stdio : Type)
    (vprintf vprintf' : LOGOG_STRING -> list (option LOGOG_STRING) -> stdio -> int * stdio)
    (fflush : stdio -> stdio)
    (GetConsoleScreenBufferInfo : stdio -> Z)
    (SetConsoleTextAttribute : Z -> stdio -> stdio)
    (color : LogogColor) (fmt : LOGOG_STRING) (args : list (option LOGOG_STRING))
    (out : stdio) :
  (forall f a o, None ∉ a -> vprintf f a o = vprintf' f a o) ->
  None ∉ args ->
  ColoredPrintf cfg TODO_COLOR_SUPPORT term_supports_color vprintf fflush
    GetConsoleScreenBufferInfo SetConsoleTextAttribute color fmt args out
  = ColoredPrintf cfg TODO_COLOR_SUPPORT term_supports_color vprintf' fflush
      GetConsoleScreenBufferInfo SetConsoleTextAttribute color fmt args out.
Proof.
  intros Hsame Hargs. unfold ColoredPrintf.
  assert (forall c, is_default c = false -> None ∉ [GetAnsiColorCode c]) as Hcode.
  { intros c Hc Hin. apply list_elem_of_singleton in Hin. by destruct c. }
  assert (None ∉ ([] : list (option LOGOG_STRING))) as Hnil by apply not_elem_of_nil.
  destruct (negb (LOGOG_FLAVOR_WINDOWS cfg) && negb (LOGOG_FLAVOR_POSIX cfg)).
  - simpl. by rewrite Hsame.
  - destruct (ShouldUseColor cfg TODO_COLOR_SUPPORT term_supports_color true);
      simpl; [|by rewrite Hsame].
    destruct (is_default color) eqn:Hdef; simpl; [by rewrite Hsame|].
    destruct (LOGOG_FLAVOR_WINDOWS cfg).
    + by rewrite Hsame.
    + rewrite (Hsame ansi_set) by (by apply Hcode).
      rewrite (Hsame fmt) by done. by rewrite (Hsame ansi_reset).
Qed.

Lemma ColoredPrintf_passes_no_NULL_witness :
  ColoredPrintf posix64 false false null_crashes (fun o => o) (fun _ => 0)
    (fun _ o => o) COLOR_GREEN (literal "hi") [] []
  = ColoredPrintf posix64 false false prints (fun o => o) (fun _ => 0)
      (fun _ o => o) COLOR_GREEN (literal "hi") [] [].
Proof.
  apply ColoredPrintf_passes_no_NULL.
  - intros f a o Ha. unfold null_crashes.
    destruct (decide (None ∈ a)) as [Hin|_]; [by destruct (Ha Hin)|done].
  - apply not_elem_of_nil.
Defined.

End ConsoleMore.

(** ** File sink: the name, the writes and the opens *)

Module FileMore.
Import File FileFacts.

(** X5: the second loop of [LogFile::LogFile] stores exactly the
    [nNameLength] characters the first loop made room for: the name up to
    its terminator, which is what [m_pFileName] then names, and the
    terminator. *)
Theorem name_copy_fills_allocation (cfg : Platform) (sFileName : string) :
  copy_loop sFileName
  = String.list_ascii_of_string (m_pFileName (LogFile_ctor cfg sFileName))
      ++ [Ascii.zero]
  /\ Z.of_nat (length (copy_loop sFileName)) = nNameLength sFileName
  /\ Ascii.zero ∉ String.list_ascii_of_string (m_pFileName (LogFile_ctor cfg sFileName)).
Proof.
  unfold nNameLength. simpl.
  induction sFileName as [|a r (IH1 & IH2 & IH3)]; simpl.
  - repeat split; [apply not_elem_of_nil].
  - destruct (Ascii.eqb_spec a Ascii.zero) as [->|Hne]; simpl.
    + repeat split; [apply not_elem_of_nil].
    + rewrite IH1 at 1. repeat split; [lia|].
      intros [?|?]%elem_of_cons; [congruence|done].
Qed.

Section WithPlatform.
Context (cfg : Platform).

Lemma length_string_bytes (data : LOGOG_STRING) :
  length (Memory.string_bytes cfg data)
  = (Pos.to_nat (sizeof_LOGOG_CHAR cfg) * length data)%nat.
Proof.
  unfold Memory.string_bytes. induction data as [|c data IH]; simpl; [lia|].
  rewrite length_app, IH, MemoryFacts.length_encode. lia.
Qed.

(** [Output] on a file that is open: the whole characters the device has
    room for are appended, and the status is 0 when that is all of them. *)
Lemma Output_open_file (data : LOGOG_STRING) (f : LogFile) (fs : FileSys)
    (path : string) (old : list byte) :
  m_bOpenFailed f = false -> m_bFirstTime f = false ->
  m_pFile f = Some path -> files fs !! path = Some old ->
  0 <= room fs ->
  let n := Z.of_nat (length data) in
  let k := Z.min n (room fs / Memory.CHAR cfg) in
  LogFile_Output cfg data (f, fs)
  = (if k =? n then 0 else -1,
     (f, {| files := <[path := old ++ take (Z.to_nat (k * Memory.CHAR cfg))
                                    (Memory.string_bytes cfg data)]> (files fs);
            denied := denied fs;
            room := room fs - k * Memory.CHAR cfg;
            fopen_log := fopen_log fs |})).
Proof.
  intros Hfail Hfirst Hfile Hold Hroom n k.
  unfold LogFile_Output, InternalOutput, fwrite.
  rewrite Hfail, Hfirst, Hfile, Hold. simpl.
  fold (Memory.CHAR cfg). fold n.
  assert (0 <= room fs / Memory.CHAR cfg) as Hdiv.
  { apply Z.div_pos; [done|]. apply MemoryFacts.CHAR_pos. }
  replace (Z.max 0 (Z.min n (room fs / Memory.CHAR cfg))) with k by (subst k n; lia).
  by destruct (k =? n).
Qed.

(** X6: [Output] on an open file with room for the whole string appends
    exactly the bytes of the string, returns 0, and opens nothing. *)
Theorem Output_appends (data : LOGOG_STRING) (f : LogFile) (fs : FileSys)
    (path : string) (old : list byte) :
  m_bOpenFailed f = false -> m_bFirstTime f = false ->
  m_pFile f = Some path -> files fs !! path = Some old ->
  Memory.CHAR cfg * Z.of_nat (length data) <= room fs ->
  LogFile_Output cfg data (f, fs)
  = (0,
     (f, {| files := <[path := old ++ Memory.string_bytes cfg data]> (files fs);
            denied := denied fs;
            room := room fs - Memory.CHAR cfg * Z.of_nat (length data);
            fopen_log := fopen_log fs |})).
Proof.
  intros Hfail Hfirst Hfile Hold Hroom.
  pose proof (MemoryFacts.CHAR_pos cfg) as HC.
  rewrite (Output_open_file data f fs path old) by (done || lia).
  assert (Z.of_nat (length data) <= room fs / Memory.CHAR cfg) as Hfit.
  { apply Z.div_le_lower_bound; lia. }
  rewrite Z.min_l by done. rewrite Z.eqb_refl.
  rewrite take_ge.
  - do 3 f_equal. lia.
  - rewrite length_string_bytes. unfold Memory.CHAR. lia.
Qed.


End WithPlatform.

Lemma Output_appends_witness :
  LogFile_Output posix64 (literal "hi") (opened posix64 "log", one_file 10)
  = (0,
     (opened posix64 "log",
      {| files := <["log"%string := [] ++ Memory.string_bytes posix64 (literal "hi")]>
                    (files (one_file 10));
         denied := denied (one_file 10);
         room := room (one_file 10)
                 - Memory.CHAR posix64 * Z.of_nat (length (literal "hi"));
         fopen_log := fopen_log (one_file 10) |})).
Proof.
  apply (Output_appends posix64 (literal "hi") (opened posix64 "log") (one_file 10)
           "log" []); try reflexivity.
  vm_compute. discriminate.
Defined.


Section Opens.
Context (cfg : Platform).

Lemma fwrite_keeps (ptr : list byte) (size count : Z) (stream : option string)
    (fs : FileSys) (path : string) :
  fopen_log (snd (fwrite ptr size count stream fs)) = fopen_log fs
  /\ denied (snd (fwrite ptr size count stream fs)) = denied fs
  /\ (is_Some (files fs !! path) ->
      is_Some (files (snd (fwrite ptr size count stream fs)) !! path)).
Proof.
  unfold fwrite. destruct stream as [p|]; simpl; [|done].
  repeat split. intros Hsome.
  destruct (decide (p = path)) as [->|Hne].
  - rewrite lookup_insert_eq. eauto.
  - by rewrite lookup_insert_ne.
Qed.

Lemma InternalOutput_keeps (n : Z) (pData : list byte) (f : LogFile)
    (fs : FileSys) (path : string) :
  fopen_log (snd (InternalOutput cfg n pData f fs)) = fopen_log fs
  /\ denied (snd (InternalOutput cfg n pData f fs)) = denied fs
  /\ (is_Some (files fs !! path) ->
      is_Some (files (snd (InternalOutput cfg n pData f fs)) !! path)).
Proof.
  unfold InternalOutput.
  pose proof (fwrite_keeps pData (Z.pos (sizeof_LOGOG_CHAR cfg)) n (m_pFile f) fs path)
    as Hkeeps.
  destruct (fwrite _ _ _ _ _) as [result fs']. simpl in Hkeeps.
  by destruct (negb (result =? n)).
Qed.

Lemma WriteUnicodeBOM_keeps (f : LogFile) (fs : FileSys) (path : string) :
  fopen_log (WriteUnicodeBOM cfg f fs) = fopen_log fs
  /\ denied (WriteUnicodeBOM cfg f fs) = denied fs
  /\ (is_Some (files fs !! path) ->
      is_Some (files (WriteUnicodeBOM cfg f fs) !! path)).
Proof.
  unfold WriteUnicodeBOM.
  destruct (sizeof_LOGOG_CHAR cfg) as [[?|?|]|[[?|?|]|[?|?|]|]|]; try done;
    destruct (negb _); apply InternalOutput_keeps.
Qed.

(** [Open] on a path that can be opened: two calls are logged, the probe
    and the append-open. *)
Lemma Open_succeeds (f : LogFile) (fs : FileSys) :
  m_pFileName f ∉ denied fs ->
  exists fs' mode,
    Open cfg f fs = (0, set_m_pFile (Some (m_pFileName f)) f, fs')
    /\ fopen_log fs' = (m_pFileName f, mode) :: (m_pFileName f, "r"%string) :: fopen_log fs
    /\ mode <> "r"%string
    /\ denied fs' = denied fs.
Proof.
  intros Hpath. unfold Open.
  assert (forall b mode fs0,
            mode <> "r"%string ->
            fopen (m_pFileName f) mode (logged (m_pFileName f) "r" fs) = (Some (m_pFileName f), fs0) ->
            exists fs',
              Open_finish cfg b (set_m_pFile (Some (m_pFileName f)) f) fs0
              = (0, set_m_pFile (Some (m_pFileName f)) f, fs')
              /\ fopen_log fs' = (m_pFileName f, mode) :: (m_pFileName f, "r"%string) :: fopen_log fs
              /\ denied fs' = denied fs) as Hfinish.
  { intros b mode fs0 Hmode Hopen. unfold Open_finish. simpl.
    assert (fopen_log fs0 = (m_pFileName f, mode) :: (m_pFileName f, "r"%string) :: fopen_log fs
            /\ denied fs0 = denied fs) as [Hlog Hden].
    { unfold fopen in Hopen.
      destruct (String.eqb_spec mode "r") as [->|_]; [done|].
      simpl in Hopen. rewrite decide_False in Hopen by done.
      destruct (files fs !! m_pFileName f); by injection Hopen as <-. }
    eexists. split; [reflexivity|].
    destruct (LOGOG_UNICODE cfg); [|done].
    destruct (negb b); [|done].
    destruct (WriteUnicodeBOM_keeps (set_m_pFile (Some (m_pFileName f)) f) fs0 (m_pFileName f))
      as (-> & -> & _). done. }
  destruct (LOGOG_FLAVOR_WINDOWS cfg).
  - rewrite fopen_s_r.
    set (mode := if LOGOG_UNICODE cfg then _ else _).
    assert (mode <> "r"%string) as Hmode by (by unfold mode; destruct (LOGOG_UNICODE cfg)).
    destruct (fopen_append (m_pFileName f) mode (logged (m_pFileName f) "r" fs) Hmode Hpath)
      as (fs0 & Hopen & _).
    unfold fopen_s. rewrite Hopen. simpl.
    match goal with
    | |- context [Open_finish cfg ?b _ _] =>
        destruct (Hfinish b mode fs0 Hmode Hopen) as (fs' & -> & Hlog & Hden)
    end.
    by exists fs', mode.
  - destruct (fopen_r_fst (m_pFileName f) fs) as [fp ->].
    destruct (fopen_append (m_pFileName f) "ab+" (logged (m_pFileName f) "r" fs)
                ltac:(done) Hpath) as (fs0 & Hopen & _).
    rewrite Hopen.
    destruct (Hfinish (match fp with Some _ => true | None => false end)
                "ab+"%string fs0 ltac:(done) Hopen) as (fs' & -> & Hlog & Hden).
    by exists fs', "ab+"%string.
Qed.

(** After the first success [Output] leaves the object and the log of
    opens alone. *)
Lemma Output_not_first (data : LOGOG_STRING) (f : LogFile) (fs : FileSys) :
  m_bFirstTime f = false ->
  fst (snd (LogFile_Output cfg data (f, fs))) = f
  /\ fopen_log (snd (snd (LogFile_Output cfg data (f, fs)))) = fopen_log fs.
Proof.
  intros Hfirst. unfold LogFile_Output. rewrite Hfirst.
  destruct (m_bOpenFailed f); [done|].
  pose proof (InternalOutput_keeps (Z.of_nat (length data))
                (Memory.string_bytes cfg data) f fs "") as (Hlog & _).
  by destruct (InternalOutput _ _ _ _ _).
Qed.

Lemma outputs_not_first (l : list LOGOG_STRING) (f : LogFile) (fs : FileSys) :
  m_bFirstTime f = false ->
  fst (snd (outputs cfg l (f, fs))) = f
  /\ fopen_log (snd (snd (outputs cfg l (f, fs)))) = fopen_log fs.
Proof.
  intros Hfirst. revert fs.
  induction l as [|data l IH]; intros fs; cbn [outputs]; [done|].
  pose proof (Output_not_first data f fs Hfirst) as [Hf Hlog].
  destruct (LogFile_Output cfg data (f, fs)) as [e [f1 fs1]]. simpl in Hf, Hlog.
  subst f1. specialize (IH fs1).
  destruct (outputs cfg l (f, fs1)) as [es [f2 fs2]]. simpl in IH |- *.
  by rewrite <- Hlog.
Qed.

(** The first [Output] on a path that can be opened. *)
Lemma Output_first_success (data : LOGOG_STRING) (f : LogFile) (fs : FileSys) :
  m_bOpenFailed f = false -> m_bFirstTime f = true ->
  m_pFileName f ∉ denied fs ->
  exists e fs' mode,
    LogFile_Output cfg data (f, fs)
    = (e, (set_m_bFirstTime false (set_m_pFile (Some (m_pFileName f)) f), fs'))
    /\ fopen_log fs' = (m_pFileName f, mode) :: (m_pFileName f, "r"%string) :: fopen_log fs
    /\ mode <> "r"%string.
Proof.
  intros Hfail Hfirst Hpath.
  destruct (Open_succeeds f fs Hpath) as (fs1 & mode & HOpen & Hlog & Hmode & Hden).
  unfold LogFile_Output. rewrite Hfail, Hfirst, HOpen. cbn [Z.eqb negb].
  set (f1 := set_m_bFirstTime false (set_m_pFile (Some (m_pFileName f)) f)).
  pose proof (InternalOutput_keeps (Z.of_nat (length data))
                (Memory.string_bytes cfg data) f1 fs1 "") as (Hlog1 & _).
  destruct (InternalOutput cfg _ _ f1 fs1) as [e fs2]. simpl in Hlog1.
  exists e, fs2, mode. split; [done|]. split; [|done]. by rewrite Hlog1.
Qed.

(** X8: on a path that can be opened, a new [LogFile] opens it for
    appending in the first [Output] and never again: whatever the number of
    calls that follow and whether their writes succeed, the log holds one
    append-open more than before, and the object is neither in its first
    call nor marked as failed. *)
Theorem LogFile_opens_once (sFileName : string) (data : LOGOG_STRING)
    (later : list LOGOG_STRING) (fs : FileSys) :
  m_pFileName (LogFile_ctor cfg sFileName) ∉ denied fs ->
  let st := snd (outputs cfg (data :: later) (LogFile_ctor cfg sFileName, fs)) in
  append_opens (m_pFileName (LogFile_ctor cfg sFileName)) (snd st)
  = S (append_opens (m_pFileName (LogFile_ctor cfg sFileName)) fs)
  /\ m_bFirstTime (fst st) = false
  /\ m_bOpenFailed (fst st) = false
  /\ m_pFile (fst st) = Some (m_pFileName (LogFile_ctor cfg sFileName)).
Proof.
  intros Hpath st. subst st. cbn [outputs].
  destruct (Output_first_success data (LogFile_ctor cfg sFileName) fs eq_refl eq_refl Hpath)
    as (e & fs1 & mode & -> & Hlog & Hmode).
  set (f1 := set_m_bFirstTime false _).
  pose proof (outputs_not_first later f1 fs1 eq_refl) as [Hf Hlog2].
  destruct (outputs cfg later (f1, fs1)) as [es [f3 fs3]]. simpl in Hf, Hlog2.
  subst f3. cbn [fst snd]. split; [|done].
  unfold append_opens. rewrite Hlog2, Hlog. cbn [count_append_opens].
  rewrite String.eqb_refl.
  by destruct (String.eqb_spec mode "r").
Qed.

(** Without [LOGOG_FLAVOR_WINDOWS], the first [Output] on a path that
    cannot be opened. *)
Lemma Output_denied_posix (data : LOGOG_STRING) (f : LogFile) (fs : FileSys) :
  LOGOG_FLAVOR_WINDOWS cfg = false ->
  m_bOpenFailed f = false -> m_bFirstTime f = true ->
  m_pFileName f ∈ denied fs ->
  LogFile_Output cfg data (f, fs)
  = (-1, (set_m_bOpenFailed true (set_m_pFile None f),
          logged (m_pFileName f) "ab+" (logged (m_pFileName f) "r" fs))).
Proof.
  intros Hw Hfail Hfirst Hden.
  unfold LogFile_Output, Open. rewrite Hfail, Hfirst, Hw.
  destruct (fopen_r_fst (m_pFileName f) fs) as [fp ->].
  rewrite fopen_denied; [|done|done]. reflexivity.
Qed.

Lemma outputs_after_failure (l : list LOGOG_STRING) (f : LogFile) (fs : FileSys) :
  m_bOpenFailed f = true ->
  outputs cfg l (f, fs) = (repeat (-1) (length l), (f, fs)).
Proof.
  intros Hfail. induction l as [|data l IH]; cbn [outputs]; [done|].
  rewrite Output_after_failure by done. by rewrite IH.
Qed.

(** X9: without [LOGOG_FLAVOR_WINDOWS], on a path that cannot be opened
    every [Output] of a new [LogFile] returns -1, the first one included;
    the path is tried once, in the first call, and no file is created or
    changed. *)
Theorem LogFile_open_failure_is_final (sFileName : string) (data : LOGOG_STRING)
    (later : list LOGOG_STRING) (fs : FileSys) :
  LOGOG_FLAVOR_WINDOWS cfg = false ->
  m_pFileName (LogFile_ctor cfg sFileName) ∈ denied fs ->
  let r := outputs cfg (data :: later) (LogFile_ctor cfg sFileName, fs) in
  fst r = repeat (-1) (S (length later))
  /\ append_opens (m_pFileName (LogFile_ctor cfg sFileName)) (snd (snd r))
     = S (append_opens (m_pFileName (LogFile_ctor cfg sFileName)) fs)
  /\ files (snd (snd r)) = files fs.
Proof.
  intros Hw Hden. cbn [outputs].
  rewrite Output_denied_posix by done.
  rewrite outputs_after_failure by done. simpl.
  repeat split. unfold append_opens. simpl. by rewrite String.eqb_refl.
Qed.

(** X10: in a Unicode build with four-byte characters [Open] puts
    FF FE 00 00 (little-endian host) or 00 00 FE FF (big-endian host) first
    into a file that did not exist; with a character width other than 1, 2
    and 4 the new file stays empty. *)
Theorem Open_wide_byte_order_mark (f : LogFile) (fs : FileSys) :
  m_pFileName f ∉ denied fs ->
  LOGOG_UNICODE cfg = true ->
  files fs !! m_pFileName f = None ->
  let fs' := snd (Open cfg f fs) in
  (sizeof_LOGOG_CHAR cfg = 4%positive -> 4 <= room fs ->
   files fs' !! m_pFileName f
   = Some (if host_little_endian cfg
           then [xff; xfe; x00; x00] else [x00; x00; xfe; xff]))
  /\ (sizeof_LOGOG_CHAR cfg <> 1%positive -> sizeof_LOGOG_CHAR cfg <> 2%positive ->
      sizeof_LOGOG_CHAR cfg <> 4%positive ->
      files fs' !! m_pFileName f = Some []).
Proof.
  intros Hpath Huni Hnew fs'.
  destruct (Open_reaches_finish cfg f fs Hpath) as (fs1 & HOpen & Hfiles & Hroom1).
  subst fs'. rewrite HOpen. unfold Open_finish. simpl.
  rewrite Huni, Hnew in *. rewrite bool_decide_false by (by intros [? ?]). simpl.
  unfold WriteUnicodeBOM. split.
  - intros Hwidth Hroom. rewrite Hwidth, probe_little_endian.
    destruct (host_little_endian cfg);
      (rewrite (InternalOutput_one cfg _ _ _ (m_pFileName f) []);
       [ rewrite Hwidth; reflexivity | reflexivity | exact Hfiles
       | rewrite Hwidth, Hroom1; lia ]).
  - intros H1 H2 H4.
    destruct (sizeof_LOGOG_CHAR cfg) as [[?|?|]|[[?|?|]|[?|?|]|]|]; done.
Qed.

(** X11: a build without [LOGOG_UNICODE] writes no mark whatever the
    character width: after a successful [Open] the file holds what it held,
    nothing if it is new, and the device has the room it had. *)
Theorem Open_without_unicode_writes_nothing (f : LogFile) (fs : FileSys) :
  LOGOG_UNICODE cfg = false ->
  m_pFileName f ∉ denied fs ->
  files (snd (Open cfg f fs)) !! m_pFileName f
  = Some (default [] (files fs !! m_pFileName f))
  /\ room (snd (Open cfg f fs)) = room fs.
Proof.
  intros Huni Hpath.
  destruct (Open_reaches_finish cfg f fs Hpath) as (fs1 & HOpen & Hfiles & Hroom1).
  rewrite HOpen. unfold Open_finish. simpl. by rewrite Huni.
Qed.

End Opens.

Lemma LogFile_opens_once_witness :
  append_opens "log"
    (snd (snd (outputs posix64 [literal "a"; literal "b"; literal "c"]
                 (LogFile_ctor posix64 "log", empty_fs))))
  = 1%nat.
Proof.
  refine (proj1 (LogFile_opens_once posix64 "log" (literal "a")
                   [literal "b"; literal "c"] empty_fs _)).
  vm_compute. discriminate.
Defined.

Lemma LogFile_open_failure_is_final_witness :
  fst (outputs posix64 [literal "a"; literal "b"; literal "c"]
         (LogFile_ctor posix64 "/ro/log", read_only_fs))
  = [-1; -1; -1].
Proof.
  refine (proj1 (LogFile_open_failure_is_final posix64 "/ro/log" (literal "a")
                   [literal "b"; literal "c"] read_only_fs eq_refl _)).
  simpl. apply elem_of_singleton. reflexivity.
Defined.

Lemma Open_wide_byte_order_mark_witness :
  files (snd (Open linux_unicode (LogFile_ctor linux_unicode "log") empty_fs))
    !! "log"%string = Some [xff; xfe; x00; x00].
Proof.
  refine (proj1 (Open_wide_byte_order_mark linux_unicode
                   (LogFile_ctor linux_unicode "log") empty_fs _ eq_refl eq_refl) eq_refl _).
  - vm_compute. discriminate.
  - vm_compute. discriminate.
Defined.

Lemma Open_without_unicode_writes_nothing_witness :
  files (snd (Open posix64 (LogFile_ctor posix64 "log") empty_fs)) !! "log"%string
  = Some [].
Proof.
  refine (proj1 (Open_without_unicode_writes_nothing posix64
                   (LogFile_ctor posix64 "log") empty_fs eq_refl _)).
  vm_compute. discriminate.
Defined.

End FileMore.

(** ** Ring buffer: status, footprint and flushes *)

Module BufferMore.
Import Memory MemoryFacts Buffer DumpFacts InsertFacts.

Section WithTarget.
Context (cfg : Platform).
Context {T : Type} `{Target T}.

Lemma Dump_well_formed (b : LogBuffer T) :
  well_formed cfg b -> well_formed cfg (snd (Dump cfg b)).
Proof.
  intros (Hend & Hsize & Hcur). unfold well_formed.
  destruct (Dump_bounds cfg b) as (-> & -> & ->).
  destruct (Dump_cursor cfg b) as [-> | [_ ->]]; repeat split; lia.
Qed.

(** What [Insert] does once the flush, if any, is behind it. *)
Lemma Insert_after_flush (pChars : LOGOG_STRING) (size : Z) (b : LogBuffer T) :
  well_formed cfg b ->
  exists b0,
    (b0 = b \/ b0 = snd (Dump cfg b))
    /\ well_formed cfg b0
    /\ Insert cfg pChars size b
       = if size >? m_nSize b then (-1, b0)
         else
           (0, set_m_pCurrent
                 (m_pCurrent b0 + WORD cfg + CHAR cfg * Z.of_nat (Z.to_nat size))
                 (set_memory
                    (fst (copy_chars cfg (Z.to_nat size) pChars
                            (store_size_t cfg (memory b0) (m_pCurrent b0) size)
                            (m_pCurrent b0 + WORD cfg)))
                    b0)).
Proof.
  intros Hwf. unfold Insert.
  set (b0 := if _ >=? _ then _ else _).
  assert (b0 = b \/ b0 = snd (Dump cfg b)) as Hb0
    by (subst b0; destruct (_ >=? _); auto).
  assert (well_formed cfg b0) as Hwf0
    by (destruct Hb0 as [-> | ->]; [done | by apply Dump_well_formed]).
  assert (m_nSize b0 = m_nSize b) as Hsize
    by (destruct Hb0 as [-> | ->]; [done | apply Dump_bounds]).
  exists b0. split; [done|]. split; [done|].
  rewrite (capacity cfg b0) by done. rewrite Hsize.
  destruct (size >? m_nSize b); [done|].
  rewrite (surjective_pairing (copy_chars cfg _ _ _ _)), copy_chars_cursor.
  reflexivity.
Qed.

(** X12: the status of [Insert] depends on the size alone: -1 for a record
    longer than the arena, 0 for every other, whether or not a flush took
    place and whatever it returned. *)
Theorem Insert_status (pChars : LOGOG_STRING) (size : Z) (b : LogBuffer T) :
  well_formed cfg b ->
  fst (Insert cfg pChars size b) = if size >? m_nSize b then -1 else 0.
Proof.
  intros Hwf.
  destruct (Insert_after_flush pChars size b Hwf) as (b0 & _ & _ & ->).
  by destruct (size >? m_nSize b).
Qed.

(** X13: [Insert] and [Dump] leave [m_pStart], [m_pEnd] and [m_nSize] as
    [Allocate] set them and never put the cursor before [m_pStart]. *)
Theorem Insert_Dump_keep_well_formed (pChars : LOGOG_STRING) (size : Z)
    (b : LogBuffer T) :
  well_formed cfg b ->
  well_formed cfg (snd (Dump cfg b))
  /\ well_formed cfg (snd (Insert cfg pChars size b))
  /\ m_pStart (snd (Insert cfg pChars size b)) = m_pStart b
  /\ m_pEnd (snd (Insert cfg pChars size b)) = m_pEnd b
  /\ m_nSize (snd (Insert cfg pChars size b)) = m_nSize b.
Proof.
  intros Hwf. split; [by apply Dump_well_formed|].
  destruct (Insert_after_flush pChars size b Hwf) as (b0 & Hb0 & Hwf0 & ->).
  assert (m_pStart b0 = m_pStart b /\ m_pEnd b0 = m_pEnd b /\ m_nSize b0 = m_nSize b)
    as (Hs & He & Hn)
    by (destruct Hb0 as [-> | ->]; [done | apply Dump_bounds]).
  sizes cfg. destruct (size >? m_nSize b); simpl; [done|].
  split; [|done]. destruct Hwf0 as (Hend & Hsize & Hcur).
  unfold well_formed. simpl. repeat split; (lia || nia).
Qed.

(** X14: [Insert] changes no byte below [m_pStart] and none at or above
    the cursor it leaves. *)
Theorem Insert_footprint (pChars : LOGOG_STRING) (size : Z) (b : LogBuffer T)
    (a : Z) :
  well_formed cfg b ->
  a < m_pStart b \/ m_pCurrent (snd (Insert cfg pChars size b)) <= a ->
  memory (snd (Insert cfg pChars size b)) !! a = memory b !! a.
Proof.
  intros Hwf.
  destruct (Insert_after_flush pChars size b Hwf) as (b0 & Hb0 & Hwf0 & ->).
  assert (m_pStart b0 = m_pStart b /\ memory b0 = memory b) as (Hs & Hm).
  { destruct Hb0 as [-> | ->]; [done|].
    split; [apply Dump_bounds | apply Dump_memory]. }
  sizes cfg. destruct (size >? m_nSize b); simpl; [by rewrite Hm|].
  destruct Hwf0 as (_ & _ & Hcur). intros Ha.
  rewrite copy_chars_outside by lia.
  rewrite store_size_t_outside by lia. by rewrite Hm.
Qed.

Lemma buffered_empty (b : LogBuffer T) :
  m_pCurrent b <= m_pStart b -> buffered cfg b = [].
Proof.
  intros Hcur. unfold buffered.
  destruct (Z.to_nat _); simpl; by destruct (Z.ltb_spec (m_pStart b) (m_pCurrent b)); try lia.
Qed.

(** X15: [Dump] of a buffer that holds nothing returns 0 without calling
    [Output]; and after a [Dump] that returned 0 the buffer holds nothing,
    so that a second [Dump] changes nothing. *)
Theorem Dump_empty (b : LogBuffer T) :
  (forall t, m_pOutputTarget b = Some t -> m_pCurrent b <= m_pStart b ->
             Dump cfg b = (0, set_m_pCurrent (m_pStart b) b))
  /\ (fst (Dump cfg b) = 0 ->
      buffered cfg (snd (Dump cfg b)) = []
      /\ Dump cfg (snd (Dump cfg b)) = (0, snd (Dump cfg b))).
Proof.
  split.
  - intros t Ht Hcur. rewrite (Dump_replay cfg b t Ht), buffered_empty by done.
    simpl. destruct b. simpl in *. by subst.
  - intros Hok. destruct (m_pOutputTarget b) as [t|] eqn:Ht.
    + rewrite (Dump_replay cfg b t Ht) in *.
      destruct (replay (buffered cfg b) t) as [[nError|] t'] eqn:Hreplay.
      * simpl in Hok. by apply replay_failure in Hreplay.
      * cbn [snd]. split; [by apply buffered_empty|].
        rewrite (Dump_replay cfg _ t') by done.
        rewrite buffered_empty by done. reflexivity.
    + unfold Dump in Hok. rewrite Ht in Hok. discriminate.
Qed.

(** X16: after a [Dump] that failed the buffer holds the records it held,
    the ones forwarded before the failure included, and the next [Dump]
    replays them from the first one on. *)
Theorem Dump_failure_keeps_records (b : LogBuffer T) (t : T) :
  m_pOutputTarget b = Some t ->
  fst (Dump cfg b) <> 0 ->
  exists t',
    m_pOutputTarget (snd (Dump cfg b)) = Some t'
    /\ buffered cfg (snd (Dump cfg b)) = buffered cfg b
    /\ Dump cfg (snd (Dump cfg b))
       = match replay (buffered cfg b) t' with
         | (None, t'') =>
             (0, set_m_pCurrent (m_pStart b) (SetTarget t'' (snd (Dump cfg b))))
         | (Some nError, t'') => (nError, SetTarget t'' (snd (Dump cfg b)))
         end.
Proof.
  intros Ht Hfail. rewrite (Dump_replay cfg b t Ht) in *.
  destruct (replay (buffered cfg b) t) as [[nError|] t'] eqn:Hreplay; [|done].
  cbn [snd]. exists t'. split; [done|]. split; [done|].
  by rewrite (Dump_replay cfg _ t').
Qed.



(** X18: [LogBuffer::~LogBuffer] hands the buffered records to the
    target as [Dump] does, drops the status of that [Dump], and sets
    [m_nSize] to 0. *)
Theorem LogBuffer_dtor_flushes (b : LogBuffer T) (t : T) :
  m_pOutputTarget b = Some t ->
  m_pOutputTarget (LogBuffer_dtor cfg b) = Some (snd (replay (buffered cfg b) t))
  /\ m_nSize (LogBuffer_dtor cfg b) = 0
  /\ memory (LogBuffer_dtor cfg b) = memory b.
Proof.
  intros Ht. unfold LogBuffer_dtor. rewrite (Dump_replay cfg b t Ht).
  by destruct (replay (buffered cfg b) t) as [[nError|] t'].
Qed.

End WithTarget.

Lemma Insert_status_witness :
  fst (Insert posix64 (literal "cdefgh") 6 (one_record (Some (broken 0)))) = 0.
Proof.
  refine (Insert_status posix64 (literal "cdefgh") 6 (one_record (Some (broken 0))) _).
  vm_compute. repeat split; discriminate.
Defined.

Lemma Insert_Dump_keep_well_formed_witness :
  well_formed posix64
    (snd (Insert posix64 (literal "cdefgh") 6 (one_record (Some ([] : Recorder))))).
Proof.
  refine (proj1 (proj2 (Insert_Dump_keep_well_formed posix64 (literal "cdefgh") 6
                          (one_record (Some ([] : Recorder))) _))).
  vm_compute. repeat split; discriminate.
Defined.

Lemma Insert_footprint_witness :
  memory (snd (Insert posix64 (literal "cd") 2 (one_record (Some ([] : Recorder)))))
    !! 4095
  = memory (one_record (Some ([] : Recorder))) !! 4095.
Proof.
  refine (Insert_footprint posix64 (literal "cd") 2
            (one_record (Some ([] : Recorder))) 4095 _ _).
  - vm_compute. repeat split; discriminate.
  - left. reflexivity.
Defined.

Lemma Dump_failure_keeps_records_witness :
  exists t',
    m_pOutputTarget (snd (Dump posix64 (one_record (Some (broken 0))))) = Some t'
    /\ buffered posix64 (snd (Dump posix64 (one_record (Some (broken 0)))))
       = buffered posix64 (one_record (Some (broken 0)))
    /\ Dump posix64 (snd (Dump posix64 (one_record (Some (broken 0)))))
       = match replay (buffered posix64 (one_record (Some (broken 0)))) t' with
         | (None, t'') =>
             (0, set_m_pCurrent (m_pStart (one_record (Some (broken 0))))
                   (SetTarget t'' (snd (Dump posix64 (one_record (Some (broken 0)))))))
         | (Some nError, t'') =>
             (nError, SetTarget t'' (snd (Dump posix64 (one_record (Some (broken 0))))))
         end.
Proof.
  apply (Dump_failure_keeps_records posix64 (one_record (Some (broken 0))) (broken 0)).
  - reflexivity.
  - vm_compute. discriminate.
Defined.


Lemma LogBuffer_dtor_flushes_witness :
  m_pOutputTarget (LogBuffer_dtor posix64 (one_record (Some ([] : Recorder))))
  = Some [literal "a"].
Proof.
  exact (proj1 (LogBuffer_dtor_flushes posix64 (one_record (Some ([] : Recorder)))
                  [] eq_refl)).
Defined.

End BufferMore.
